(** * argparse.h: a shallow embedding of the argument parser

    The development follows src/argparse.h top to bottom: the typed
    [value] container and its conversions, the positional and optional
    argument descriptors, the [argparse] object with its registration
    methods, the accessors [get]/[getall] and the two-phase [parse].

    Conventions.
    - A [std::string] is a [string]; a [std::vector] is a [list]; the
      iterator [vp] over a vector is the suffix of the vector that starts
      at [vp], so [vp == end()] is the empty suffix.
    - [std::map<arg, values>] is a [gmap string values];
      [std::map::insert] keeps an existing binding.
    - A thrown [std::runtime_error] is a value of [runtime_error]; its
      [what] text is the one in the source.
    - Dereferencing [end()] and indexing an empty vector have no defined
      behaviour in C++; the model stops there, with [Undefined] for a read,
      [Abort] for a scan and [Unspecified] for [parse].
    - The text written to a [FILE*] stream is a string.  A printing
      function returns after it has printed, throws the "wrong argument
      type." of [describe_type], or indexes an empty vector ([printing]).
    - [parse_io] is [parse] with the text it writes to [stderr]; [parse]
      is what the caller of [parse] sees of it.  [exit] ends the run with
      the exit status; the throw of "wrong argument type." out of
      [show_help] leaves [parse] as [IoThrownWrongType], [ThrownWrongType]. *)

From Equations Require Import Equations.
From Stdlib Require Import ZArith Ascii String List Lia Bool.
From stdpp Require Import base option list list_numbers strings pretty gmap fin_maps.

Local Open Scope string_scope.
Local Open Scope list_scope.
Local Open Scope Z_scope.

(** ** Basic types *)

(** [constexpr int16_t variable_args = -1] *)
Definition variable_args : Z := -1.

(** [typedef std::string arg] and [typedef std::vector<arg> args] *)
Abbreviation arg := string.
Abbreviation args := (list arg).

(** [enum class value_type]; the enumerators are scoped, as in the source:
    [value_type.Bool] is [value_type::Bool]. *)
Module value_type.
Inductive t : Type :=
| Null
| Bool
| Integer
| Float
| String.
End value_type.
Abbreviation value_type := value_type.t.

(** ** Exceptions *)

(** The exceptions of the conversions, the registration, the queries and
    the scan, one constructor per message.  The "wrong argument type." of
    [describe_type] is thrown while the help is printed: it is the [Threw]
    of [printing], further down. *)
Inductive runtime_error : Type :=
| type_is_null
| not_boolean
| not_integer
| not_float
| help_predefined
| after_varargs
| not_parsed
| not_found
| insufficient.

Definition dquote : string := String (ascii_of_nat 34) EmptyString.

Definition what (e : runtime_error) : string :=
  match e with
  | type_is_null => "argument type is null."
  | not_boolean => "value is not convertible to boolean-type"
  | not_integer => "value is not convertible to integer-type"
  | not_float => "value is not convertible to float-type"
  | help_predefined => "the name " +:+ dquote +:+ "help" +:+ dquote +:+ " is predefined."
  | after_varargs => "cannot add any argument after varargs."
  | not_parsed => "arguments are not parsed."
  | not_found => "argument not found."
  | insufficient => "insufficient number of arguments"
  end.

(** The error kinds of the specification, and the kind of each exception. *)
Inductive error_kind : Type :=
| ConversionError
| InsufficientArguments
| RegistrationError
| NotFound
| ParserNotReady.

Definition kind_of (e : runtime_error) : error_kind :=
  match e with
  | type_is_null | not_boolean | not_integer | not_float => ConversionError
  | help_predefined | after_varargs => RegistrationError
  | not_parsed => ParserNotReady
  | not_found => NotFound
  | insufficient => InsufficientArguments
  end.

(** The result of code that returns or throws. *)
Inductive result (A : Type) : Type :=
| Ok (a : A)
| Throw (e : runtime_error).
Arguments Ok {A} a.
Arguments Throw {A} e.

(** ** The C and C++ library functions the file calls *)

(** [tolower] in the "C" locale, which [std::regex] with [icase] applies
    to both the pattern and the text. *)
Definition tolower (c : ascii) : ascii :=
  let n := N_of_ascii c in
  if ((65 <=? n) && (n <=? 90))%N then ascii_of_N (n + 32) else c.

(** [std::regex_match(s, std::regex(pat, icase))] for a pattern of
    ordinary characters: the whole of [s] is matched against the whole of
    [pat], character by character, case folded. *)
Fixpoint regex_match_icase (s pat : string) : bool :=
  match s, pat with
  | EmptyString, EmptyString => true
  | String c s', String p pat' =>
      if Ascii.eqb (tolower c) (tolower p) then regex_match_icase s' pat'
      else false
  | _, _ => false
  end.

(** [isspace] in the "C" locale: space, \t, \n, \v, \f, \r. *)
Definition isspace (c : ascii) : bool :=
  let n := N_of_ascii c in
  ((n =? 32) || ((9 <=? n) && (n <=? 13)))%N.

Definition digit_value (c : ascii) : option Z :=
  let n := N_of_ascii c in
  if ((48 <=? n) && (n <=? 57))%N then Some (Z.of_N n - 48) else None.

Fixpoint skip_spaces (s : string) : string :=
  match s with
  | String c s' => if isspace c then skip_spaces s' else s
  | EmptyString => s
  end.

(** The longest run of decimal digits at the head of [s], accumulated on
    [acc]. *)
Fixpoint digits_value (s : string) (acc : Z) : Z :=
  match s with
  | String c s' =>
      match digit_value c with
      | Some d => digits_value s' (10 * acc + d)
      | None => acc
      end
  | EmptyString => acc
  end.

Definition starts_with_digit (s : string) : bool :=
  match s with
  | String c _ => bool_decide (is_Some (digit_value c))
  | EmptyString => false
  end.

Definition LONG_MIN : Z := - 2 ^ 63.
Definition LONG_MAX : Z := 2 ^ 63 - 1.

(** What [std::stol] throws. *)
Inductive stol_failure : Type :=
| invalid_argument
| out_of_range.

(** [std::stol(s)] (base 10, [long] of 64 bits): [strtol] skips white
    space, reads an optional sign and the longest run of digits, and
    ignores what follows; no digit at all is [std::invalid_argument], a
    value outside [long] is [std::out_of_range]. *)
Definition stol (s : string) : stol_failure + Z :=
  let s1 := skip_spaces s in
  let '(neg, s2) :=
    match s1 with
    | String c s' =>
        if Ascii.eqb c "-"%char then (true, s')
        else if Ascii.eqb c "+"%char then (false, s')
        else (false, s1)
    | EmptyString => (false, s1)
    end in
  if starts_with_digit s2 then
    let n := digits_value s2 0 in
    let v := if neg then - n else n in
    if (LONG_MIN <=? v) && (v <=? LONG_MAX) then inr v else inl out_of_range
  else inl invalid_argument.

(** [s] begins with the characters of [pat], letter case aside. *)
Fixpoint prefix_icase (pat s : string) : bool :=
  match pat, s with
  | EmptyString, _ => true
  | String q pat', String c s' =>
      if Ascii.eqb (tolower c) (tolower q) then prefix_icase pat' s' else false
  | String _ _, EmptyString => false
  end.

(** The texts in which [strtod], and so [std::stod], finds a number: after
    white space and an optional sign, a digit, a point followed by a
    digit, or the letters of "inf" or "nan" in either case.  Whether the
    number is in the range of [double] is left aside.  The runs of the
    model at the end of the file use this function where the parser is
    parameterised by the behaviour of [std::stod]; none of them reads a
    float. *)
Definition strtod_converts (s : arg) : bool :=
  let s1 := skip_spaces s in
  let s2 :=
    match s1 with
    | String c s' =>
        if Ascii.eqb c "-"%char || Ascii.eqb c "+"%char then s' else s1
    | EmptyString => s1
    end in
  match s2 with
  | String c s' =>
      starts_with_digit s2
      || (Ascii.eqb c "."%char && starts_with_digit s')
      || prefix_icase "inf" s2 || prefix_icase "nan" s2
  | EmptyString => false
  end.

(** ** [class value] *)

Record value : Type := mk_value { _type : value_type; _value : arg }.

(** [typedef std::vector<value> values] *)
Abbreviation values := (list value).

(** [value::convert_bool] *)
Definition convert_bool (v : value) : result bool :=
  if regex_match_icase (_value v) "true" then Ok true
  else if regex_match_icase (_value v) "false" then Ok false
  else match stol (_value v) with
       | inr n => Ok (negb (n =? 0))
       | inl _ => Throw not_boolean
       end.

(** [value::convert_integer] *)
Definition convert_integer (v : value) : result Z :=
  match stol (_value v) with
  | inr n => Ok n
  | inl _ => Throw not_integer
  end.

Section Argparse.

(** [std::stod] reads a floating-point number.  Its result is a
    [double], which is outside this model; what the parser observes is
    only whether the call returns or throws, and that is taken as a
    parameter: [stod_converts s] holds when [std::stod(s)] returns. *)
Variable stod_converts : arg -> bool.

(** [value::convert_float]; the [double] it returns is not modelled. *)
Definition convert_float (v : value) : result unit :=
  if stod_converts (_value v) then Ok tt else Throw not_float.

(** [value::convert_string]; copying the string does not throw. *)
Definition convert_string (v : value) : result arg := Ok (_value v).

(** [value::assert_argument_type] *)
Definition assert_argument_type (v : value) : result unit :=
  match _type v with
  | value_type.Null => Throw type_is_null
  | value_type.Bool =>
      match convert_bool v with Ok _ => Ok tt | Throw e => Throw e end
  | value_type.Integer =>
      match convert_integer v with Ok _ => Ok tt | Throw e => Throw e end
  | value_type.Float => convert_float v
  | value_type.String =>
      match convert_string v with Ok _ => Ok tt | Throw e => Throw e end
  end.

(** The constructor [value(type, s)]: the fields are set, then the type
    is asserted. *)
Definition new_value (type : value_type) (s : arg) : result value :=
  let v := mk_value type s in
  match assert_argument_type v with
  | Ok _ => Ok v
  | Throw e => Throw e
  end.

(** [value::get<T>]: one specialisation per requested type.  The
    narrower integer types cast the result of [convert_integer], and
    [float]/[double] return that of [convert_float]; they are not
    needed below. *)
Class ValueGet (T : Type) : Type := value_get : value -> result T.
#[export] Instance get_bool : ValueGet bool := convert_bool.
#[export] Instance get_int64_t : ValueGet Z := convert_integer.
#[export] Instance get_arg : ValueGet string := convert_string.

(** ** The argument descriptors *)

(** [class abstract_argument]; the fields are named by their accessors. *)
Record abstract_argument : Type := mk_abstract_argument {
  type : value_type;
  nargs : Z;
  name : arg;
  comment : arg
}.

(** [class positional_argument] adds no field. *)
Definition positional_argument : Type := abstract_argument.

Definition new_positional_argument
  (name : arg) (type : value_type) (n : Z) (com : arg) : positional_argument :=
  mk_abstract_argument type n name com.

(** [class optional_argument] adds the directives. *)
Record optional_argument : Type := mk_optional_argument {
  base : abstract_argument;
  options : list arg
}.

(** The two full constructors of [optional_argument]: with one
    directive, and with a vector of them, pushed back one by one. *)
Definition new_optional_argument1
  (dir name : arg) (type : value_type) (n : Z) (com : arg) : optional_argument :=
  mk_optional_argument (mk_abstract_argument type n name com) ([] ++ [dir]).

Definition new_optional_argument
  (dirs : list arg) (name : arg) (type : value_type) (n : Z) (com : arg)
  : optional_argument :=
  mk_optional_argument (mk_abstract_argument type n name com)
    (fold_left (fun acc d => acc ++ [d]) dirs []).

(** [optional_argument::operator==(const arg&)]: 1 when one of the
    directives compares equal to [str], else 0. *)
Fixpoint directive_eq (optseqs : list arg) (str : arg) : Z :=
  match optseqs with
  | [] => 0
  | d :: rest => if String.eqb d str then 1 else directive_eq rest str
  end.

Definition operator_eq (o : optional_argument) (str : arg) : Z :=
  directive_eq (options o) str.

(** [std::find(_op.begin(), _op.end(), tok) != _op.end()] *)
Fixpoint std_find (ops : list optional_argument) (tok : arg) : bool :=
  match ops with
  | [] => false
  | o :: rest => if operator_eq o tok =? 0 then std_find rest tok else true
  end.

(** ** [class argparse] *)

Record argparse : Type := mk_argparse {
  _description : arg;
  _completed : bool;
  _varargs : bool;
  _appname : string;
  _map : gmap string values;
  _arguments : list arg;
  _positional_parsers : list positional_argument;
  _optional_parsers : list optional_argument
}.

Definition set_completed (b : bool) (p : argparse) : argparse :=
  mk_argparse (_description p) b (_varargs p) (_appname p) (_map p)
    (_arguments p) (_positional_parsers p) (_optional_parsers p).

Definition set_map (m : gmap string values) (p : argparse) : argparse :=
  mk_argparse (_description p) (_completed p) (_varargs p) (_appname p) m
    (_arguments p) (_positional_parsers p) (_optional_parsers p).

(** The built-in help option of the constructor. *)
Definition help_option : optional_argument :=
  new_optional_argument ["-h"; "--help"] "help" value_type.Bool 0
    "Show a help message".

(** The constructor [argparse(nargs, argv, desc, with_help)]; [argv] is
    given as [argv[0]] and the list [argv[1..nargs-1]]. *)
Definition new_argparse
  (argv0 : arg) (argv : list arg) (desc : arg) (with_help : bool) : argparse :=
  mk_argparse desc false false argv0 ∅ argv []
    (if with_help then [help_option] else []).

(** [argparse::set_description] *)
Definition set_description (desc : arg) (p : argparse) : argparse :=
  mk_argparse desc (_completed p) (_varargs p) (_appname p) (_map p)
    (_arguments p) (_positional_parsers p) (_optional_parsers p).

(** [argparse::add_argument(name, type, n, com)] *)
Definition add_argument
  (name : arg) (type : value_type) (n : Z) (com : arg) (p : argparse)
  : result argparse :=
  if String.eqb name "help" then Throw help_predefined
  else if _varargs p then Throw after_varargs
  else
    Ok (mk_argparse (_description p) false
          (if n <? 0 then true else _varargs p) (_appname p) (_map p)
          (_arguments p)
          (_positional_parsers p ++ [new_positional_argument name type n com])
          (_optional_parsers p)).

(** [argparse::add_option(dir, name, type, n, com)], one directive *)
Definition add_option1
  (dir name : arg) (type : value_type) (n : Z) (com : arg) (p : argparse)
  : result argparse :=
  if String.eqb name "help" then Throw help_predefined
  else
    Ok (mk_argparse (_description p) false (_varargs p) (_appname p) (_map p)
          (_arguments p) (_positional_parsers p)
          (_optional_parsers p ++ [new_optional_argument1 dir name type n com])).

(** [argparse::add_option(dirs, name, type, n, com)], a vector of
    directives *)
Definition add_option
  (dirs : list arg) (name : arg) (type : value_type) (n : Z) (com : arg)
  (p : argparse) : result argparse :=
  if String.eqb name "help" then Throw help_predefined
  else
    Ok (mk_argparse (_description p) false (_varargs p) (_appname p) (_map p)
          (_arguments p) (_positional_parsers p)
          (_optional_parsers p ++ [new_optional_argument dirs name type n com])).

(** ** The accessors *)

(** A call that returns, throws, or runs into undefined behaviour. *)
Inductive outcome (A : Type) : Type :=
| Returns (a : A)
| Throws (e : runtime_error)
| Undefined.
Arguments Returns {A} a.
Arguments Throws {A} e.
Arguments Undefined {A}.

Definition of_result {A : Type} (r : result A) : outcome A :=
  match r with
  | Ok a => Returns a
  | Throw e => Throws e
  end.

(** [argparse::get<T>(name)]; [varr[0]] on an empty vector is undefined. *)
Definition get {T : Type} `{ValueGet T} (name : arg) (p : argparse) : outcome T :=
  if negb (_completed p) then Throws not_parsed
  else
    match _map p !! name with
    | None => Throws not_found
    | Some varr =>
        match varr with
        | [] => Undefined
        | v :: _ => of_result (value_get v)
        end
    end.

(** [argparse::get<T>(name, dummy)] catches [std::runtime_error]. *)
Definition get_or {T : Type} `{ValueGet T} (name : arg) (dummy : T) (p : argparse)
  : outcome T :=
  match get name p with
  | Throws _ => Returns dummy
  | r => r
  end.

(** The loop of [getall]: [retval.push_back(p.get<T>())] for each value. *)
Fixpoint get_each {T : Type} `{ValueGet T} (varr : values) (retval : list T)
  : result (list T) :=
  match varr with
  | [] => Ok retval
  | v :: rest =>
      match value_get v with
      | Ok x => get_each rest (retval ++ [x])
      | Throw e => Throw e
      end
  end.

(** [argparse::getall<T>(name)] *)
Definition getall {T : Type} `{ValueGet T} (name : arg) (p : argparse)
  : result (list T) :=
  if negb (_completed p) then Throw not_parsed
  else
    match _map p !! name with
    | None => Throw not_found
    | Some varr => get_each varr []
    end.

(** [argparse::getall<T>(name, dummy)] *)
Definition getall_or {T : Type} `{ValueGet T} (name : arg) (dummy : T) (p : argparse)
  : list T :=
  match getall name p with
  | Ok l => l
  | Throw _ => [dummy]
  end.

(** [argparse::find] *)
Definition find (name : arg) (p : argparse) : bool :=
  bool_decide (is_Some (_map p !! name)).

(** ** [argparse::parse] *)

(** [_map.insert(argument(name, v))]: [std::map::insert] adds the pair
    only when the key is absent. *)
Definition map_insert (name : arg) (v : values) (m : gmap string values)
  : gmap string values :=
  match m !! name with
  | Some _ => m
  | None => <[name := v]> m
  end.

(** A piece of [parse] that works on [_map]: it returns with a result,
    throws, or runs into undefined behaviour.  The map is a member of
    the object, so what was inserted before a throw stays. *)
Inductive run (A : Type) : Type :=
| Return (a : A) (m : gmap string values)
| Raise (e : runtime_error) (m : gmap string values)
| Abort.
Arguments Return {A} a m.
Arguments Raise {A} e m.
Arguments Abort {A}.

(** Phase 1, fixed size:
    [for (auto i=0; i<size; i++) { v.push_back(value(type, *vp)); vp++; }]
    with [n] iterations to go.  Nothing compares [vp] with [end()], so
    the loop dereferences [end()] when the tokens run out. *)
Fixpoint read_fixed (type : value_type) (n : nat) (vp : list arg) (v : values)
  : outcome (values * list arg) :=
  match n with
  | O => Returns (v, vp)
  | S n' =>
      match vp with
      | [] => Undefined
      | tok :: vp' =>
          match new_value type tok with
          | Ok x => read_fixed type n' vp' (v ++ [x])
          | Throw e => Throws e
          end
      end
  end.

(** Phase 1, [variable_args]:
    [while (vp != end) { q = std::find(...); if (q != end) break;
                         v.push_back(value(type, *vp)); vp++; }] *)
Fixpoint read_variable (op : list optional_argument) (type : value_type)
  (vp : list arg) (v : values) : outcome (values * list arg) :=
  match vp with
  | [] => Returns (v, vp)
  | tok :: vp' =>
      if std_find op tok then Returns (v, vp)
      else
        match new_value type tok with
        | Ok x => read_variable op type vp' (v ++ [x])
        | Throw e => Throws e
        end
  end.

(** What a matched option [o] reads after its directive; [None] when
    its size is none of 0, a positive number or [variable_args], in
    which case nothing is inserted. *)
Definition read_option (op : list optional_argument) (o : optional_argument)
  (vp : list arg) : outcome (option values * list arg) :=
  let size := nargs (base o) in
  let type := type (base o) in
  if size =? 0 then Returns (Some [mk_value value_type.Bool "true"], vp)
  else if size >=? 1 then
    match read_fixed type (Z.to_nat size) vp [] with
    | Returns (v, vp') => Returns (Some v, vp')
    | Throws e => Throws e
    | Undefined => Undefined
    end
  else if size =? variable_args then
    match read_variable op type vp [] with
    | Returns (v, vp') => Returns (Some v, vp')
    | Throws e => Throws e
    | Undefined => Undefined
    end
  else Returns (None, vp).

(** The body of [for (auto& o : _op)], over the options still to visit.
    The loop goes on after a match: the options that follow are tested
    against the token the cursor has reached. *)
Fixpoint for_options (op rest : list optional_argument) (vp : list arg)
  (_updated : bool) (m : gmap string values) : run (list arg * bool) :=
  match rest with
  | [] => Return (vp, _updated) m
  | o :: rest' =>
      match vp with
      | [] => Return (vp, _updated) m
      | tok :: vp' =>
          if operator_eq o tok =? 0 then for_options op rest' vp _updated m
          else
            match read_option op o vp' with
            | Returns (Some v, vp'') =>
                for_options op rest' vp'' true (map_insert (name (base o)) v m)
            | Returns (None, vp'') => for_options op rest' vp'' true m
            | Throws e => Raise e m
            | Undefined => Abort
            end
      end
  end.

(** The cursor only moves forward, and it moves when an option matched:
    this is what makes the [while] loop of phase 1 terminate. *)
Lemma read_fixed_cursor type n vp v v' vp' :
  read_fixed type n vp v = Returns (v', vp') -> (length vp' <= length vp)%nat.
Proof.
  revert vp v. induction n as [|n IH]; intros vp v; simpl.
  - intros [= _ <-]. lia.
  - destruct vp as [|tok vp0]; [discriminate|].
    destruct (new_value type tok); [|discriminate].
    intros Hr. apply IH in Hr. simpl. lia.
Qed.

Lemma read_variable_cursor op type vp v v' vp' :
  read_variable op type vp v = Returns (v', vp') -> (length vp' <= length vp)%nat.
Proof.
  revert v. induction vp as [|tok vp0 IH]; intros v; simpl.
  - intros [= _ <-]. simpl. lia.
  - destruct (std_find op tok).
    + intros [= _ <-]. simpl. lia.
    + destruct (new_value type tok); [|discriminate].
      intros Hr. apply IH in Hr. lia.
Qed.

Lemma read_option_cursor op o vp ov vp' :
  read_option op o vp = Returns (ov, vp') -> (length vp' <= length vp)%nat.
Proof.
  unfold read_option.
  destruct (nargs (base o) =? 0); [intros [= _ <-]; lia|].
  destruct (nargs (base o) >=? 1).
  - destruct (read_fixed _ _ _ _) as [[v1 vp1]| |] eqn:E; try discriminate.
    intros [= _ <-]. eapply read_fixed_cursor, E.
  - destruct (nargs (base o) =? variable_args); [|intros [= _ <-]; lia].
    destruct (read_variable _ _ _ _) as [[v1 vp1]| |] eqn:E; try discriminate.
    intros [= _ <-]. eapply read_variable_cursor, E.
Qed.

Lemma for_options_cursor op rest vp u m vp' u' m' :
  for_options op rest vp u m = Return (vp', u') m' ->
  (length vp' <= length vp)%nat
  /\ (u = true -> u' = true)
  /\ (u' = false -> vp' = vp)
  /\ (u = false -> u' = true -> (length vp' < length vp)%nat).
Proof.
  revert vp u m. induction rest as [|o rest' IH]; intros vp u m; simpl.
  - intros [= <- <- _]. split; [|split; [|split]]; [lia|done|done|congruence].
  - destruct vp as [|tok vp0].
    { intros [= <- <- _]. split; [|split; [|split]]; [simpl; lia|done|done|congruence]. }
    destruct (operator_eq o tok =? 0); [apply IH|].
    destruct (read_option op o vp0) as [[[v1|] vp1]| |] eqn:E; try discriminate.
    all: apply read_option_cursor in E.
    all: intros Hr; apply IH in Hr as (Hle & Hu & Hf & Ht).
    all: split; [|split; [|split]]; [simpl; lia|by intros _; apply Hu| |simpl; lia].
    all: intros ->; specialize (Hu eq_refl); discriminate.
Qed.

(** Phase 1: [while (vp != _arguments.end())].  One turn runs the [for]
    loop over all the options and, when none matched, pushes the
    current token on [_remaining] and steps over it. *)
Equations? optional_scan (op : list optional_argument) (vp : list arg)
  (_remaining : list arg) (m : gmap string values) : run (list arg)
  by wf (length vp) lt :=
optional_scan op [] _remaining m := Return _remaining m;
optional_scan op (tok :: vp0) _remaining m
  with Equations.Prop.Logic.inspect (for_options op op (tok :: vp0) false m) := {
  | exist _ (Return (vp1, true) m1) Heq => optional_scan op vp1 _remaining m1;
  | exist _ (Return ([], false) m1) Heq => Abort;
  | exist _ (Return (t :: vp2, false) m1) Heq =>
      optional_scan op vp2 (_remaining ++ [t]) m1;
  | exist _ (Raise e m1) Heq => Raise e m1;
  | exist _ Abort Heq => Abort }.
Proof.
  - apply for_options_cursor in Heq as (_ & _ & _ & Hlt). by apply Hlt.
  - apply for_options_cursor in Heq as (_ & _ & Hsame & _).
    specialize (Hsame eq_refl). injection Hsame as -> ->. simpl. lia.
Qed.

(** Phase 2, fixed size: the loop of phase 1 with the test
    [if (vp == _remaining.end()) throw ...] before each read. *)
Fixpoint read_positional (type : value_type) (n : nat) (vp : list arg) (v : values)
  : result (values * list arg) :=
  match n with
  | O => Ok (v, vp)
  | S n' =>
      match vp with
      | [] => Throw insufficient
      | tok :: vp' =>
          match new_value type tok with
          | Ok x => read_positional type n' vp' (v ++ [x])
          | Throw e => Throw e
          end
      end
  end.

(** Phase 2, [variable_args]:
    [while (vp != _remaining.end()) { v.push_back(value(type, *vp)); vp++; }] *)
Fixpoint read_rest (type : value_type) (vp : list arg) (v : values)
  : result (values * list arg) :=
  match vp with
  | [] => Ok (v, vp)
  | tok :: vp' =>
      match new_value type tok with
      | Ok x => read_rest type vp' (v ++ [x])
      | Throw e => Throw e
      end
  end.

(** One turn of [while (ip != _pp.end())]: the values bound to the
    positional argument [ip], and the cursor after them. *)
Definition bind_positional (ip : positional_argument) (vp : list arg)
  : result (values * list arg) :=
  match vp with
  | [] => Throw insufficient
  | _ :: _ =>
      let size := nargs ip in
      if size >=? 1 then read_positional (type ip) (Z.to_nat size) vp []
      else if size =? variable_args then read_rest (type ip) vp []
      else Ok ([], vp)
  end.

(** Phase 2; it returns the tokens no positional argument has taken. *)
Fixpoint positional_scan (pp : list positional_argument) (vp : list arg)
  (m : gmap string values) : run (list arg) :=
  match pp with
  | [] => Return vp m
  | ip :: pp' =>
      match bind_positional ip vp with
      | Ok (v, vp') => positional_scan pp' vp' (map_insert (name ip) v m)
      | Throw e => Raise e m
      end
  end.

(** The [try] block of [parse], up to [_completed = true]. *)
Definition try_block (p : argparse) : run (list arg) :=
  match optional_scan (_optional_parsers p) (_arguments p) [] (_map p) with
  | Return _remaining m1 => positional_scan (_positional_parsers p) _remaining m1
  | Raise e m1 => Raise e m1
  | Abort => Abort
  end.

(** ** Printing: [format], [explain] and [show_help] *)

(** The text written to the stream is kept as a string.  A call that
    prints returns after writing [out], throws "wrong argument type."
    after writing [out], or indexes an empty vector. *)
Inductive printing : Type :=
| Printed (out : string)
| Threw (out : string)
| Crashed.

(** One call after another. *)
Definition then_print (a b : printing) : printing :=
  match a with
  | Printed out1 =>
      match b with
      | Printed out2 => Printed (out1 +:+ out2)
      | Threw out2 => Threw (out1 +:+ out2)
      | Crashed => Crashed
      end
  | Threw out1 => Threw out1
  | Crashed => Crashed
  end.

Definition print_seq (l : list printing) : printing :=
  foldr then_print (Printed "") l.

(** A loop whose body prints [f x], for the [x] of [l] in turn. *)
Definition print_each {A : Type} (f : A -> string) (l : list A) : string :=
  foldr (fun x out => f x +:+ out) "" l.

(** The line feed. *)
Definition nl : string := String (ascii_of_nat 10) EmptyString.

(** "%s" of [s.c_str()]: the characters of [s] before the first NUL. *)
Fixpoint c_str (s : string) : string :=
  match s with
  | EmptyString => EmptyString
  | String c s' => if Ascii.eqb c zero then EmptyString else String c (c_str s')
  end.

(** "%d" and "%ld": the decimal digits, after a minus sign for a negative
    number. *)
Definition print_d (i : Z) : string := pretty i.

(** [abstract_argument::describe_type]; [None] when it throws "wrong
    argument type.". *)
Definition describe_type (a : abstract_argument) : option string :=
  match type a with
  | value_type.Integer => Some "integer"
  | value_type.Float => Some "float"
  | value_type.String => Some "string"
  | _ => None
  end.

(** The loop that prints a description, shared by the two [explain]: the
    characters of the comment in lines of 8 spaces and up to 72
    characters; [n] is the column. *)
Fixpoint comment_loop (com : string) (n : nat) : string :=
  match com with
  | EmptyString => if Nat.eqb n 0 then "" else nl
  | String c rest =>
      let indent := if Nat.eqb n 0 then "        " else "" in
      let n1 := if Nat.eqb n 0 then 8%nat else n in
      indent +:+ String c
        (if Nat.eqb (S n1) 80 then nl +:+ comment_loop rest 0
         else comment_loop rest (S n1))
  end.

(** [if (comment().size()>0) { ... }] *)
Definition comment_lines (com : string) : string :=
  match com with
  | EmptyString => ""
  | String _ _ => comment_loop com 0
  end.

(** [positional_argument::format] *)
Definition positional_format (a : positional_argument) : string :=
  (if nargs a =? 0 then ""
   else if nargs a >? 1 then
     c_str (name a) +:+ "(" +:+ print_d 0 +:+ ")"
     +:+ print_each (fun i => " " +:+ c_str (name a) +:+ "(" +:+ print_d i +:+ ")")
           (seqZ 1 (nargs a - 1))
   else if nargs a =? 1 then c_str (name a)
   else c_str (name a) +:+ "...")
  +:+ " ".

(** [positional_argument::explain]; the arguments of the first [fprintf]
    are evaluated before it prints. *)
Definition positional_explain (a : positional_argument) : printing :=
  match describe_type a with
  | None => Threw ""
  | Some d =>
      Printed ("  " +:+ c_str (name a) +:+ " [" +:+ d
               +:+ print_each (fun _ => "," +:+ d) (seqZ 1 (nargs a - 1))
               +:+ (if nargs a =? variable_args then ",..." else "")
               +:+ "]:" +:+ nl +:+ comment_lines (comment a))
  end.

(** [optional_argument::show_option]; [_optseqs[0]] on an option without
    directive is undefined. *)
Definition show_option (o : optional_argument) : printing :=
  match options o with
  | [] => Crashed
  | [d0] => Printed (c_str d0)
  | d0 :: rest => Printed (c_str d0 +:+ print_each (fun d => "|" +:+ c_str d) rest)
  end.

(** [optional_argument::format] *)
Definition optional_format (o : optional_argument) : printing :=
  let a := base o in
  let several := (1 <? Z.of_nat (length (options o))) in
  print_seq
    [Printed "[";
     Printed (if several then "{" else "");
     show_option o;
     Printed (if several then "}" else "");
     Printed
       (if nargs a =? 0 then ""
        else if nargs a >? 1 then
          print_each (fun i => " " +:+ c_str (name a) +:+ "(" +:+ print_d i +:+ ")")
            (seqZ 0 (nargs a))
        else if nargs a =? 1 then " " +:+ c_str (name a)
        else " " +:+ c_str (name a) +:+ "...");
     Printed "] "].

(** [optional_argument::explain] *)
Definition optional_explain (o : optional_argument) : printing :=
  let a := base o in
  print_seq
    [Printed "  ";
     show_option o;
     (if nargs a =? 0 then Printed ""
      else
        then_print
          (if nargs a >? 1 then
             match describe_type a with
             | None => Threw ""
             | Some d =>
                 Printed (" [" +:+ c_str (name a) +:+ "(" +:+ print_d 0 +:+ "):" +:+ d
                          +:+ print_each
                                (fun i => "," +:+ c_str (name a) +:+ "(" +:+ print_d i
                                          +:+ "):" +:+ d)
                                (seqZ 1 (nargs a - 1)))
             end
           else if nargs a =? 1 then
             match describe_type a with
             | None => Threw ""
             | Some d => Printed (" [" +:+ c_str (name a) +:+ ":" +:+ d)
             end
           else if nargs a =? variable_args then
             match describe_type a with
             | None => Threw ""
             | Some d => Printed (" [" +:+ c_str (name a) +:+ ":" +:+ d +:+ ",...")
             end
           else Printed "")
          (Printed "]"));
     Printed (":" +:+ nl);
     Printed (comment_lines (comment a))].

(** [argparse::format] *)
Definition format (p : argparse) : printing :=
  let op := _optional_parsers p in
  print_seq
    [Printed (c_str (_appname p) +:+ " ");
     print_seq (optional_format <$> filter (fun o => nargs (base o) = 0) op);
     print_seq (optional_format <$> filter (fun o => 0 < nargs (base o)) op);
     Printed (print_each positional_format (_positional_parsers p));
     print_seq (optional_format <$> filter (fun o => nargs (base o) < 0) op);
     Printed nl].

(** [argparse::explain] *)
Definition explain (p : argparse) : printing :=
  print_seq
    [match _positional_parsers p with
     | [] => Printed ""
     | pp => then_print (Printed (nl +:+ "Arguments" +:+ nl))
               (print_seq (positional_explain <$> pp))
     end;
     match _optional_parsers p with
     | [] => Printed ""
     | op => then_print (Printed (nl +:+ "Options" +:+ nl))
               (print_seq (optional_explain <$> op))
     end].

(** [argparse::show_help(output, simple)] *)
Definition show_help (simple : bool) (p : argparse) : printing :=
  print_seq
    [Printed (match _description p with
              | EmptyString => ""
              | desc => c_str desc +:+ nl +:+ nl
              end);
     Printed ("usage:" +:+ nl +:+ "  ");
     format p;
     if simple then Printed "" else explain p].

(** ** [argparse::parse], the whole call *)

Inductive exit_status : Type :=
| EXIT_SUCCESS
| EXIT_FAILURE.

(** How a call of [parse] ends, with the text it has written to [stderr]:
    it returns, it throws the exception of its scan to the caller, it
    throws the "wrong argument type." of [describe_type] out of
    [show_help], the process exits, or the behaviour is undefined.  The
    parser is given as it is left. *)
Inductive parse_io_outcome : Type :=
| IoReturned (p : argparse)
| IoThrown (e : runtime_error) (p : argparse)
| IoThrownWrongType (err : string) (p : argparse)
| IoExited (status : exit_status) (err : string)
| IoUnspecified.

(** [show_help(stderr, simple)], then [tail] printed and [exit(status)]. *)
Definition help_and_exit (simple : bool) (tail : string) (status : exit_status)
  (p : argparse) : parse_io_outcome :=
  match show_help simple p with
  | Printed out => IoExited status (out +:+ tail)
  | Threw out => IoThrownWrongType out p
  | Crashed => IoUnspecified
  end.

(** [argparse::parse(help_on_error, show_help_and_exit)] with its calls of
    [show_help] and [fprintf]. *)
Definition parse_io (help_on_error show_help_and_exit : bool) (p : argparse)
  : parse_io_outcome :=
  match try_block p with
  | Return _ m1 =>
      let p1 := set_completed true (set_map m1 p) in
      if show_help_and_exit then
        match get_or "help" false p1 with
        | Returns true => help_and_exit false "" EXIT_SUCCESS p1
        | Returns false => IoReturned p1
        | Throws e => IoThrown e p1
        | Undefined => IoUnspecified
        end
      else IoReturned p1
  | Raise e m1 =>
      let p1 := set_map m1 p in
      if help_on_error then
        let p2 := set_completed true p1 in
        match get_or "help" false p2 with
        | Returns true => help_and_exit false "" EXIT_SUCCESS p2
        | Returns false =>
            help_and_exit true (nl +:+ "error: " +:+ what e +:+ nl) EXIT_FAILURE p2
        | Throws e' => IoThrown e' p2
        | Undefined => IoUnspecified
        end
      else IoThrown e p1
  | Abort => IoUnspecified
  end.

(** How a call of [parse] ends for its caller, the text on [stderr] left
    aside. *)
Inductive parse_outcome : Type :=
| Returned (p : argparse)
| Thrown (e : runtime_error) (p : argparse)
| ThrownWrongType (p : argparse)
| Exited (status : exit_status)
| Unspecified.

Definition without_text (r : parse_io_outcome) : parse_outcome :=
  match r with
  | IoReturned p => Returned p
  | IoThrown e p => Thrown e p
  | IoThrownWrongType _ p => ThrownWrongType p
  | IoExited status _ => Exited status
  | IoUnspecified => Unspecified
  end.

(** [argparse::parse(help_on_error, show_help_and_exit)], as its caller
    sees it. *)
Definition parse (help_on_error show_help_and_exit : bool) (p : argparse)
  : parse_outcome :=
  without_text (parse_io help_on_error show_help_and_exit p).

(** ** Definitions for the statements *)

(** [_map] is only ever written by [map_insert], and nothing in [parse]
    reads it before the [try] block ends: a scan started on the map
    [m0 ∪ m] does what it does on [m], with [m0] kept in front. *)
Definition shift {A : Type} (m0 : gmap string values) (r : run A) : run A :=
  match r with
  | Return a m => Return a (m0 ∪ m)
  | Raise e m => Raise e (m0 ∪ m)
  | Abort => Abort
  end.

(** A parser is constructed, then used through its public methods.  A
    registration that throws leaves the parser as it was; a [parse] that
    throws leaves the parser to its caller, whatever it throws; a [parse]
    that exits leaves no parser. *)
Inductive reachable (with_help : bool) : argparse -> Prop :=
| reach_new argv0 argv desc :
    reachable with_help (new_argparse argv0 argv desc with_help)
| reach_set_description desc p :
    reachable with_help p -> reachable with_help (set_description desc p)
| reach_add_argument name type n com p p' :
    reachable with_help p ->
    add_argument name type n com p = Ok p' -> reachable with_help p'
| reach_add_option1 dir name type n com p p' :
    reachable with_help p ->
    add_option1 dir name type n com p = Ok p' -> reachable with_help p'
| reach_add_option dirs name type n com p p' :
    reachable with_help p ->
    add_option dirs name type n com p = Ok p' -> reachable with_help p'
| reach_parse_returned h s p p' :
    reachable with_help p -> parse h s p = Returned p' -> reachable with_help p'
| reach_parse_thrown h s e p p' :
    reachable with_help p -> parse h s p = Thrown e p' -> reachable with_help p'
| reach_parse_wrong_type h s p p' :
    reachable with_help p -> parse h s p = ThrownWrongType p' ->
    reachable with_help p'.

(** [_varargs] records that the last positional argument has a negative
    size; the ones before it never have. *)
Definition varargs_inv (p : argparse) : Prop :=
  if _varargs p then
    exists pre s, _positional_parsers p = pre ++ [s] /\ nargs s < 0
                  /\ Forall (fun x => 0 <= nargs x) pre
  else Forall (fun x => 0 <= nargs x) (_positional_parsers p).

(** Only the built-in option is named "help". *)
Definition help_inv (with_help : bool) (p : argparse) : Prop :=
  Forall (fun x => name x <> "help") (_positional_parsers p)
  /\ exists user,
       _optional_parsers p = (if with_help then [help_option] else []) ++ user
       /\ Forall (fun o => name (base o) <> "help") user.



(** [name] is the name of a registered positional or optional argument. *)
Definition registered (name0 : arg) (p : argparse) : Prop :=
  (exists x, x ∈ _positional_parsers p /\ name x = name0)
  \/ (exists o, o ∈ _optional_parsers p /\ name (base o) = name0).

(** [tok] is one of the directives of a registered option. *)
Definition is_directive (op : list optional_argument) (tok : arg) : Prop :=
  exists o, o ∈ op /\ tok ∈ options o.

(** ** Parsers for the runs of the model *)

(** The parser of the failing run of C1: the built-in help option, an
    option [--count] that takes one integer, and the single token
    [--count]. *)
Definition count_parser : argparse :=
  mk_argparse "" false false "prog" ∅ ["--count"] []
    [help_option; new_optional_argument1 "--count" "count" value_type.Integer 1 ""].

(** The example of the specification: a positional [name] that takes one
    string and a positional [nums] that takes the integers that are left,
    on the tokens [alice 1 2 3]. *)
Definition name_nums_parser : argparse :=
  mk_argparse "" false true "prog" ∅ ["alice"; "1"; "2"; "3"]
    [new_positional_argument "name" value_type.String 1 "";
     new_positional_argument "nums" value_type.Integer variable_args ""]
    [help_option].

Definition name_nums_map : gmap string values :=
  {[ "name" := [mk_value value_type.String "alice"];
     "nums" := [mk_value value_type.Integer "1"; mk_value value_type.Integer "2";
                mk_value value_type.Integer "3"] ]}.

Definition name_nums_parsed : argparse :=
  set_completed true (set_map name_nums_map name_nums_parser).

(** A parser with the positional arguments [a] (one string) and [b] (the
    integers that are left) on the single token [x]. *)
Definition short_parser : argparse :=
  mk_argparse "" false true "prog" ∅ ["x"]
    [new_positional_argument "a" value_type.String 1 "";
     new_positional_argument "b" value_type.Integer variable_args ""]
    [].

Definition short_map : gmap string values :=
  {[ "a" := [mk_value value_type.String "x"] ]}.

(** The options of the example of the specification for C4: [--tags]
    takes strings up to the next directive, [--verbose] is a switch. *)
Definition tags_option : optional_argument :=
  new_optional_argument1 "--tags" "tags" value_type.String variable_args "".

Definition verbose_option : optional_argument :=
  new_optional_argument1 "--verbose" "verbose" value_type.Bool 0 "".

(** The parser of the counterexample of C3 after its first [parse]: the
    tokens [1 2], a positional [a] that takes one string and is bound to
    "1", and the switch registered since, whose directive is the token
    "1". *)
Definition stale_parser : argparse :=
  mk_argparse "" false false "prog"
    {[ "a" := [mk_value value_type.String "1"] ]} ["1"; "2"]
    [new_positional_argument "a" value_type.String 1 ""]
    [new_optional_argument1 "1" "one" value_type.Bool 0 ""].

(** The same arguments and tokens on a parser that has not parsed yet. *)
Definition unparsed_parser : argparse := set_map ∅ stale_parser.

(** ** Definitions for further statements *)

(** A value as its constructor leaves it: its text converts to its type. *)
Definition value_ok (v : value) : Prop := assert_argument_type v = Ok tt.

(** The list of values that phase 2 binds to the positional argument
    [ip]: values of the type of [ip]; as many as the size when the size is
    positive, at least one when it is [variable_args], none otherwise. *)
Definition positional_binding (ip : positional_argument) (vs : values) : Prop :=
  Forall (fun v => _type v = type ip) vs
  /\ (1 <= nargs ip -> Z.of_nat (length vs) = nargs ip)
  /\ (nargs ip = variable_args -> vs <> [])
  /\ (nargs ip < 1 -> nargs ip <> variable_args -> vs = []).

(** The list of values that phase 1 inserts for the option [o]: the
    single boolean "true" when the size is 0, whatever the type of [o];
    else values of the type of [o], as many as the size when it is
    positive.  An option of a size below [variable_args] inserts nothing. *)
Definition option_binding (o : optional_argument) (vs : values) : Prop :=
  (nargs (base o) = 0 -> vs = [mk_value value_type.Bool "true"])
  /\ (nargs (base o) <> 0 -> Forall (fun v => _type v = type (base o)) vs)
  /\ (1 <= nargs (base o) -> Z.of_nat (length vs) = nargs (base o))
  /\ (nargs (base o) = 0 \/ 1 <= nargs (base o) \/ nargs (base o) = variable_args).

(** The binding of [k] to [vs] is one that [parse] makes for a positional
    argument of [pp] or an option of [op] named [k]. *)
Definition justified (op : list optional_argument) (pp : list positional_argument)
  (k : arg) (vs : values) : Prop :=
  Forall value_ok vs
  /\ ((exists ip, ip ∈ pp /\ name ip = k /\ positional_binding ip vs)
      \/ (exists o, o ∈ op /\ name (base o) = k /\ option_binding o vs)).

Definition bindings_justified (op : list optional_argument)
  (pp : list positional_argument) (m : gmap string values) : Prop :=
  forall k vs, m !! k = Some vs -> justified op pp k vs.

(** The map a piece of [parse] leaves in the object, if it ends. *)
Definition final_map {A : Type} (r : run A) : option (gmap string values) :=
  match r with
  | Return _ m => Some m
  | Raise _ m => Some m
  | Abort => None
  end.

(** The type of [a] has a name for [explain]. *)
Definition describable (a : abstract_argument) : Prop := is_Some (describe_type a).

(** The sizes of an option for which [explain] names the type. *)
Definition explains_type (o : optional_argument) : Prop :=
  1 <= nargs (base o) \/ nargs (base o) = variable_args.

(** Every type that [explain] has to name has a name. *)
Definition all_describable (p : argparse) : Prop :=
  Forall describable (_positional_parsers p)
  /\ Forall (fun o => explains_type o -> describable (base o)) (_optional_parsers p).

(** A parser whose positional argument [flag] has the type Bool, on the
    tokens [-h 1]. *)
Definition flag_parser : argparse :=
  mk_argparse "" false false "prog" ∅ ["-h"; "1"]
    [new_positional_argument "flag" value_type.Bool 1 ""] [help_option].

(** A parser fresh from its constructor, on the tokens [-h x]. *)
Definition help_first_parser : argparse := new_argparse "prog" ["-h"; "x"] "" true.

(** A description of 72 characters. *)
Definition full_line : string :=
  "A description of exactly seventy-two characters, as wide as a line goes.".

(** [name_nums_parsed] after the registration of the switch [--verbose]. *)
Definition name_nums_verbose : argparse :=
  mk_argparse "" false true "prog" name_nums_map ["alice"; "1"; "2"; "3"]
    (_positional_parsers name_nums_parser) [help_option; verbose_option].

(** The call returns after it has printed. *)
Definition prints (x : printing) : Prop := exists out, x = Printed out.

(** The map that the scan of the tokens [-h 1] leaves when the positional
    argument [flag] takes one boolean. *)
Definition flag_map : gmap string values :=
  {[ "help" := [mk_value value_type.Bool "true"];
     "flag" := [mk_value value_type.Bool "1"] ]}.

(** [flag_parser] with a second positional argument [n], for which the
    tokens [-h 1] leave nothing: its scan throws. *)
Definition flag_count_parser : argparse :=
  mk_argparse "" false false "prog" ∅ ["-h"; "1"]
    [new_positional_argument "flag" value_type.Bool 1 "";
     new_positional_argument "n" value_type.Integer 1 ""] [help_option].


(** The parser of C1 with the token [-h] before [--count]. *)
Definition help_count_parser : argparse :=
  mk_argparse "" false false "prog" ∅ ["-h"; "--count"] []
    [help_option; new_optional_argument1 "--count" "count" value_type.Integer 1 ""].

(** ** The map during a scan *)

Ltac each_printing :=
  repeat (apply Forall_cons_2; [|]); [..|apply Forall_nil_2].

Lemma map_insert_union name v (m0 m : gmap string values) :
  map_insert name v (m0 ∪ m) = m0 ∪ map_insert name v m.
Proof.
  unfold map_insert. rewrite lookup_union.
  destruct (m !! name) as [w|] eqn:Em, (m0 !! name) as [w0|] eqn:E0; simpl; try done.
  - apply map_eq. intros k. rewrite !lookup_union.
    destruct (decide (name = k)) as [<-|Hne].
    + rewrite lookup_insert_eq, E0, Em. done.
    + by rewrite lookup_insert_ne.
  - by rewrite insert_union_r.
Qed.


Lemma for_options_shift op rest vp u (m0 m : gmap string values) :
  for_options op rest vp u (m0 ∪ m) = shift m0 (for_options op rest vp u m).
Proof.
  revert vp u m. induction rest as [|o rest' IH]; intros vp u m; simpl; [done|].
  destruct vp as [|tok vp0]; [done|].
  destruct (operator_eq o tok =? 0); [apply IH|].
  destruct (read_option op o vp0) as [[[v1|] vp1]| |]; simpl; try done.
  rewrite map_insert_union. apply IH.
Qed.

(** The [while] loop of phase 1, one turn unfolded. *)
Lemma optional_scan_turn op tok vp0 _remaining m :
  optional_scan op (tok :: vp0) _remaining m =
  match for_options op op (tok :: vp0) false m with
  | Return (vp1, true) m1 => optional_scan op vp1 _remaining m1
  | Return ([], false) m1 => Abort
  | Return (t :: vp2, false) m1 => optional_scan op vp2 (_remaining ++ [t]) m1
  | Raise e m1 => Raise e m1
  | Abort => Abort
  end.
Proof.
  simp optional_scan.
  generalize (Equations.Prop.Logic.inspect (for_options op op (tok :: vp0) false m)).
  intros [r Heq]. etransitivity; [|rewrite Heq; reflexivity].
  destruct r as [[vp1 [|]] m1|e m1|]; simp optional_scan; try done.
  all: destruct vp1; simp optional_scan; done.
Qed.

Lemma optional_scan_shift op vp _remaining (m0 m : gmap string values) :
  optional_scan op vp _remaining (m0 ∪ m) = shift m0 (optional_scan op vp _remaining m).
Proof.
  remember (length vp) as k eqn:Hk. revert vp _remaining m Hk.
  induction k as [k IH] using lt_wf_ind. intros vp _remaining m ->.
  destruct vp as [|tok vp0]; [by simp optional_scan|].
  rewrite !optional_scan_turn, for_options_shift.
  destruct (for_options op op (tok :: vp0) false m) as [[vp1 u] m1|e m1|] eqn:E;
    simpl; try done.
  apply for_options_cursor in E as (_ & _ & Hsame & Hlt).
  destruct u.
  - specialize (Hlt eq_refl eq_refl).
    destruct vp1; (eapply IH; [|done]); exact Hlt.
  - specialize (Hsame eq_refl) as ->. eapply IH; [|done]. simpl. lia.
Qed.

Lemma positional_scan_shift pp vp (m0 m : gmap string values) :
  positional_scan pp vp (m0 ∪ m) = shift m0 (positional_scan pp vp m).
Proof.
  revert vp m. induction pp as [|ip pp' IH]; intros vp m; simpl; [done|].
  destruct (bind_positional ip vp) as [[v vp']|e]; [|done].
  rewrite map_insert_union. apply IH.
Qed.

Lemma try_block_shift p (m0 m : gmap string values) :
  try_block (set_map (m0 ∪ m) p) = shift m0 (try_block (set_map m p)).
Proof.
  unfold try_block. simpl. rewrite optional_scan_shift.
  destruct (optional_scan _ _ _ m) as [r m1|e m1|]; simpl; try done.
  apply positional_scan_shift.
Qed.

Lemma set_map_id p : set_map (_map p) p = p.
Proof. by destruct p. Qed.

(** The scan on the parser as it is, from the scan on an empty map. *)
Lemma try_block_fresh p :
  try_block p = shift (_map p) (try_block (set_map ∅ p)).
Proof.
  rewrite <- try_block_shift, (right_id_L ∅ (∪)). by rewrite set_map_id.
Qed.

(** ** How [parse] ends *)

Lemma get_or_no_throw {T : Type} `{ValueGet T} name (dummy : T) p e :
  get_or name dummy p <> Throws e.
Proof. unfold get_or. by destruct (get name p). Qed.

Lemma help_and_exit_not_returned simple tail status p p' :
  without_text (help_and_exit simple tail status p) <> Returned p'.
Proof. unfold help_and_exit. by destruct (show_help simple p). Qed.

Lemma help_and_exit_not_thrown simple tail status p e p' :
  without_text (help_and_exit simple tail status p) <> Thrown e p'.
Proof. unfold help_and_exit. by destruct (show_help simple p). Qed.

Lemma help_and_exit_wrong_type simple tail status p p' :
  without_text (help_and_exit simple tail status p) = ThrownWrongType p' ->
  p' = p /\ exists out, show_help simple p = Threw out.
Proof.
  unfold help_and_exit. destruct (show_help simple p) as [out|out|]; try discriminate.
  intros [= <-]. eauto.
Qed.

Lemma parse_returned h s p p' :
  parse h s p = Returned p' ->
  exists r m1, try_block p = Return r m1 /\ p' = set_completed true (set_map m1 p).
Proof.
  unfold parse, parse_io.
  destruct (try_block p) as [r m1|e m1|] eqn:E; [| |discriminate].
  - intros Hp. exists r, m1. split; [done|].
    destruct s; [|simpl in Hp; congruence].
    destruct (get_or "help" false _) as [[|]|e|]; simpl in Hp; try congruence.
    by apply help_and_exit_not_returned in Hp.
  - destruct h; [|discriminate].
    destruct (get_or "help" false _) as [[|]|e'|]; try discriminate.
    all: intros Hp; by apply help_and_exit_not_returned in Hp.
Qed.

Lemma parse_thrown h s p e p' :
  parse h s p = Thrown e p' ->
  h = false /\ exists m1, try_block p = Raise e m1 /\ p' = set_map m1 p.
Proof.
  unfold parse, parse_io.
  destruct (try_block p) as [r m1|e1 m1|] eqn:E; [| |discriminate].
  - destruct s; [|discriminate].
    destruct (get_or "help" false _) as [[|]|e'|] eqn:G; try discriminate.
    + intros Hp. by apply help_and_exit_not_thrown in Hp.
    + by apply get_or_no_throw in G.
  - destruct h.
    + destruct (get_or "help" false _) as [[|]|e'|] eqn:G; try discriminate.
      * intros Hp. by apply help_and_exit_not_thrown in Hp.
      * intros Hp. by apply help_and_exit_not_thrown in Hp.
      * by apply get_or_no_throw in G.
    + intros [= <- <-]. eauto.
Qed.

(** The throw of "wrong argument type." leaves [_completed] set and the
    map as the scan has left it, whether the scan went through or not. *)
Lemma parse_wrong_type h s p p' :
  parse h s p = ThrownWrongType p' ->
  (exists m1, p' = set_completed true (set_map m1 p)
              /\ ((exists r, try_block p = Return r m1 /\ s = true)
                  \/ (exists e, try_block p = Raise e m1 /\ h = true)))
  /\ exists simple out, show_help simple p' = Threw out.
Proof.
  unfold parse, parse_io.
  destruct (try_block p) as [r m1|e1 m1|] eqn:E; [| |discriminate].
  - destruct s; [|discriminate].
    destruct (get_or "help" false _) as [[|]|e'|] eqn:G; try discriminate.
    intros Hp. apply help_and_exit_wrong_type in Hp as [-> Hs].
    split; [|eauto]. exists m1. split; [done|]. left. eauto.
  - destruct h; [|discriminate].
    destruct (get_or "help" false _) as [[|]|e'|] eqn:G; try discriminate.
    all: intros Hp; apply help_and_exit_wrong_type in Hp as [-> Hs].
    all: split; [|eauto]; exists m1; split; [done|]; right; eauto.
Qed.

Lemma try_block_returns_fresh p r m1 :
  try_block p = Return r m1 ->
  exists m, try_block (set_map ∅ p) = Return r m /\ m1 = _map p ∪ m.
Proof.
  rewrite try_block_fresh.
  destruct (try_block (set_map ∅ p)) as [r' m|e m|]; simpl; try discriminate.
  intros [= <- <-]. eauto.
Qed.


Lemma reachable_varargs_inv with_help p : reachable with_help p -> varargs_inv p.
Proof.
  induction 1 as [argv0 argv desc|desc p _ IH|nm ty n com p p' _ IH Hadd
                 |dir nm ty n com p p' _ IH Hadd|dirs nm ty n com p p' _ IH Hadd
                 |h s p p' _ IH Hp|h s e p p' _ IH Hp|h s p p' _ IH Hp].
  - unfold varargs_inv. simpl. constructor.
  - exact IH.
  - unfold add_argument in Hadd. destruct (String.eqb nm "help"); [discriminate|].
    unfold varargs_inv in *. destruct (_varargs p); [discriminate|].
    injection Hadd as <-. simpl. destruct (n <? 0) eqn:En.
    + exists (_positional_parsers p), (new_positional_argument nm ty n com).
      split; [done|]. split; [simpl; lia|done].
    + apply Forall_app. split; [done|]. constructor; [simpl; lia|constructor].
  - unfold add_option1 in Hadd. destruct (String.eqb nm "help"); [discriminate|].
    injection Hadd as <-. exact IH.
  - unfold add_option in Hadd. destruct (String.eqb nm "help"); [discriminate|].
    injection Hadd as <-. exact IH.
  - apply parse_returned in Hp as (r & m1 & _ & ->). exact IH.
  - apply parse_thrown in Hp as (_ & m1 & _ & ->). exact IH.
  - apply parse_wrong_type in Hp as [(m1 & -> & _) _]. exact IH.
Qed.

Lemma reachable_help_inv with_help p : reachable with_help p -> help_inv with_help p.
Proof.
  induction 1 as [argv0 argv desc|desc p _ IH|nm ty n com p p' _ IH Hadd
                 |dir nm ty n com p p' _ IH Hadd|dirs nm ty n com p p' _ IH Hadd
                 |h s p p' _ IH Hp|h s e p p' _ IH Hp|h s p p' _ IH Hp].
  - split; [constructor|]. exists []. simpl. by rewrite app_nil_r.
  - exact IH.
  - unfold add_argument in Hadd.
    destruct (String.eqb nm "help") eqn:En; [discriminate|].
    destruct (_varargs p); [discriminate|]. injection Hadd as <-.
    destruct IH as [Hpp Hop]. split; [|exact Hop]. simpl.
    apply Forall_app. split; [done|]. constructor; [|constructor].
    simpl. by apply String.eqb_neq.
  - unfold add_option1 in Hadd.
    destruct (String.eqb nm "help") eqn:En; [discriminate|]. injection Hadd as <-.
    destruct IH as [Hpp (user & Hop & Huser)]. split; [exact Hpp|]. simpl.
    exists (user ++ [new_optional_argument1 dir nm ty n com]).
    rewrite Hop, app_assoc. split; [done|].
    apply Forall_app. split; [done|]. constructor; [|constructor].
    simpl. by apply String.eqb_neq.
  - unfold add_option in Hadd.
    destruct (String.eqb nm "help") eqn:En; [discriminate|]. injection Hadd as <-.
    destruct IH as [Hpp (user & Hop & Huser)]. split; [exact Hpp|]. simpl.
    exists (user ++ [new_optional_argument dirs nm ty n com]).
    rewrite Hop, app_assoc. split; [done|].
    apply Forall_app. split; [done|]. constructor; [|constructor].
    simpl. by apply String.eqb_neq.
  - apply parse_returned in Hp as (r & m1 & _ & ->). exact IH.
  - apply parse_thrown in Hp as (_ & m1 & _ & ->). exact IH.
  - apply parse_wrong_type in Hp as [(m1 & -> & _) _]. exact IH.
Qed.

(** ** Reading a boolean *)



Example stol_plain : stol "42" = inr 42.
Proof. reflexivity. Qed.

Example stol_prefix : stol "  -7 apples" = inr (-7).
Proof. reflexivity. Qed.

Example stol_no_digit : stol "yes" = inl invalid_argument.
Proof. reflexivity. Qed.

Example stol_too_large : stol "9223372036854775808" = inl out_of_range.
Proof. reflexivity. Qed.


(** ** Registration *)

(** [_varargs] is set exactly when a positional argument of negative
    size has been registered. *)
Lemma varargs_flag with_help p :
  reachable with_help p ->
  _varargs p = true <-> exists x, x ∈ _positional_parsers p /\ nargs x < 0.
Proof.
  intros Hr. apply reachable_varargs_inv in Hr. unfold varargs_inv in Hr.
  destruct (_varargs p).
  - destruct Hr as (pre & x & Hpp & Hx & _). split; [intros _|done].
    exists x. split; [|done]. rewrite Hpp. apply elem_of_app. right.
    apply list_elem_of_here.
  - split; [done|]. intros (x & Hin & Hx).
    eapply Forall_forall in Hr; [|exact Hin]. simpl in Hr. lia.
Qed.

(** C2, as the code has it. On every parser a program can build,
    [add_argument] fails exactly when the name is "help" or a positional
    argument of negative size has been registered, and [add_option] fails
    exactly when the name is "help", each time with a registration error.
    Every other registration goes through, for a name that is registered
    already as for any other: the new argument is appended to the list of
    its kind, the other list and the map are kept, and [_completed] is
    reset. *)
Theorem C2_registration_refuses_help_and_varargs
  (with_help : bool) (p : argparse) (name0 : arg) (type0 : value_type) (n : Z)
  (com dir : arg) (dirs : list arg) :
  reachable with_help p ->
  ((exists e, add_argument name0 type0 n com p = Throw e)
     <-> name0 = "help" \/ exists x, x ∈ _positional_parsers p /\ nargs x < 0)
  /\ ((exists e, add_option1 dir name0 type0 n com p = Throw e) <-> name0 = "help")
  /\ ((exists e, add_option dirs name0 type0 n com p = Throw e) <-> name0 = "help")
  /\ (forall e, add_argument name0 type0 n com p = Throw e
                \/ add_option1 dir name0 type0 n com p = Throw e
                \/ add_option dirs name0 type0 n com p = Throw e ->
                kind_of e = RegistrationError)
  /\ (name0 <> "help" ->
      Forall (fun x => 0 <= nargs x) (_positional_parsers p) ->
      exists p',
        add_argument name0 type0 n com p = Ok p'
        /\ _positional_parsers p'
           = _positional_parsers p ++ [new_positional_argument name0 type0 n com]
        /\ _optional_parsers p' = _optional_parsers p
        /\ _map p' = _map p /\ _completed p' = false)
  /\ (name0 <> "help" ->
      exists p1 p2,
        add_option1 dir name0 type0 n com p = Ok p1
        /\ _optional_parsers p1
           = _optional_parsers p ++ [new_optional_argument1 dir name0 type0 n com]
        /\ _positional_parsers p1 = _positional_parsers p
        /\ _map p1 = _map p /\ _completed p1 = false
        /\ add_option dirs name0 type0 n com p = Ok p2
        /\ _optional_parsers p2
           = _optional_parsers p ++ [new_optional_argument dirs name0 type0 n com]
        /\ _positional_parsers p2 = _positional_parsers p
        /\ _map p2 = _map p /\ _completed p2 = false).
Proof.
  intros Hr. pose proof (varargs_flag with_help p Hr) as Hflag.
  unfold add_argument, add_option1, add_option.
  destruct (String.eqb_spec name0 "help") as [->|Hne].
  - split; [split; eauto|]. split; [split; eauto|]. split; [split; eauto|].
    split; [|done]. intros e [He|[He|He]]; by injection He as <-.
  - split.
    { destruct (_varargs p) eqn:Ev.
      - split; [intros _|eauto]. right. by apply Hflag.
      - split; [by intros [e He]|]. intros [Hn|Hx]; [done|].
        apply Hflag in Hx. discriminate. }
    split; [split; [by intros [e He]|done]|].
    split; [split; [by intros [e He]|done]|].
    split.
    { intros e [He|[He|He]]; try discriminate.
      destruct (_varargs p); [by injection He as <-|discriminate]. }
    split.
    + intros _ Hpos. destruct (_varargs p) eqn:Ev.
      * destruct Hflag as [Hflag _]. destruct (Hflag eq_refl) as (x & Hin & Hx).
        eapply Forall_forall in Hpos; [|exact Hin]. simpl in Hpos. lia.
      * eexists. split; [reflexivity|]. done.
    + intros _. do 2 eexists. split; [reflexivity|]. repeat split; reflexivity.
Qed.

(** C10. The name "help" is refused by [add_argument] and by both forms of
    [add_option], whatever the parser and however it was constructed; so
    on every parser a program can build no positional argument is named
    "help", and an option named "help" is the built-in one of a parser
    constructed with [with_help]. *)
Theorem C10_help_is_reserved :
  (forall (p : argparse) (type0 : value_type) (n : Z) (com dir : arg) (dirs : list arg),
      add_argument "help" type0 n com p = Throw help_predefined
      /\ add_option1 dir "help" type0 n com p = Throw help_predefined
      /\ add_option dirs "help" type0 n com p = Throw help_predefined)
  /\ kind_of help_predefined = RegistrationError
  /\ (forall with_help p, reachable with_help p ->
        (forall x, x ∈ _positional_parsers p -> name x <> "help")
        /\ (forall o, o ∈ _optional_parsers p -> name (base o) = "help" ->
              with_help = true /\ o = help_option)).
Proof.
  split; [done|]. split; [done|].
  intros with_help p Hr. apply reachable_help_inv in Hr as [Hpp (user & Hop & Huser)].
  split.
  - intros x Hx. by eapply Forall_forall in Hpp.
  - intros o Ho Hname. rewrite Hop in Ho. apply elem_of_app in Ho as [Ho|Ho].
    + destruct with_help; [|by apply elem_of_nil in Ho].
      by apply list_elem_of_singleton in Ho.
    + eapply Forall_forall in Huser; [|exact Ho]. done.
Qed.

(** C6. On every parser a program can build, a positional argument of
    size [variable_args] is the last positional argument and the only one
    of that size, and once it is there [add_argument] fails with a
    registration error whatever it is given. *)
Theorem C6_variable_positional_is_last
  (with_help : bool) (p : argparse) (pre post : list positional_argument)
  (x : positional_argument) :
  reachable with_help p ->
  _positional_parsers p = pre ++ x :: post ->
  nargs x = variable_args ->
  post = []
  /\ Forall (fun y => nargs y <> variable_args) pre
  /\ forall name0 type0 n com,
       exists e, add_argument name0 type0 n com p = Throw e
                 /\ kind_of e = RegistrationError.
Proof.
  intros Hr Hpp Hx. apply reachable_varargs_inv in Hr. unfold varargs_inv in Hr.
  unfold variable_args in *.
  destruct (_varargs p) eqn:Ev.
  - destruct Hr as (pre' & y & Hpp' & Hy & Hpre').
    assert (post = [] /\ pre = pre') as [-> ->].
    { rewrite Hpp in Hpp'. destruct post as [|z post _] using rev_ind.
      - by apply app_inj_tail in Hpp' as [-> _].
      - rewrite app_comm_cons, app_assoc in Hpp'.
        apply app_inj_tail in Hpp' as [<- _].
        apply Forall_app in Hpre' as [_ Hbad].
        apply Forall_cons in Hbad as [Hbad _]. lia. }
    split; [done|]. split.
    + eapply Forall_impl; [exact Hpre'|]. simpl. lia.
    + intros name0 type0 n com. unfold add_argument. rewrite Ev.
      destruct (String.eqb name0 "help"); eauto.
  - rewrite Hpp in Hr. apply Forall_app in Hr as [_ Hbad].
    apply Forall_cons in Hbad as [Hbad _]. lia.
Qed.

(** ** Phase 1 *)

Lemma directive_eq_spec optseqs str :
  directive_eq optseqs str <> 0 <-> str ∈ optseqs.
Proof.
  induction optseqs as [|d rest IH]; simpl.
  - split; [done|]. by intros ?%elem_of_nil.
  - destruct (String.eqb_spec d str) as [->|Hne].
    + split; [intros _; apply list_elem_of_here|done].
    + rewrite IH. split; [apply list_elem_of_further|].
      intros [?|?]%elem_of_cons; [congruence|done].
Qed.

Lemma std_find_spec op tok : std_find op tok = true <-> is_directive op tok.
Proof.
  unfold is_directive. induction op as [|o rest IH]; simpl.
  - split; [done|]. by intros (o & ?%elem_of_nil & _).
  - destruct (Z.eqb_spec (operator_eq o tok) 0) as [Hz|Hnz].
    + rewrite IH. split.
      * intros (o' & Ho' & Ht). exists o'. split; [by apply list_elem_of_further|done].
      * intros (o' & [->|Ho']%elem_of_cons & Ht); [|by eauto].
        apply directive_eq_spec in Ht. done.
    + split; [|done]. intros _. exists o. split; [apply list_elem_of_here|].
      by apply directive_eq_spec.
Qed.

(** [value(type, tok)] throws nothing but conversion errors. *)
Lemma new_value_throw type0 tok e :
  new_value type0 tok = Throw e -> kind_of e = ConversionError.
Proof.
  unfold new_value, assert_argument_type, convert_bool, convert_integer,
    convert_float, convert_string. simpl.
  destruct type0; simpl;
    repeat match goal with
      | |- context [if ?b then _ else _] => destruct b; simpl
      | |- context [match stol ?s with _ => _ end] => destruct (stol s); simpl
      end; intros [= <-]; done.
Qed.

(** A fixed-size option that finds fewer tokens than its size, all of them
    convertible, reads the token at [end()]. *)
Lemma read_fixed_short type0 n vp v :
  (length vp < n)%nat ->
  Forall (fun t => new_value type0 t = Ok (mk_value type0 t)) vp ->
  read_fixed type0 n vp v = Undefined.
Proof.
  revert vp v. induction n as [|n IH]; intros vp v Hlen Hconv; [lia|].
  destruct vp as [|tok vp0]; simpl; [done|].
  apply Forall_cons in Hconv as [-> Hconv]. apply IH; [simpl in Hlen; lia|done].
Qed.

(** Phase 1 throws nothing but conversion errors. *)
Lemma read_fixed_throw type0 n vp v e :
  read_fixed type0 n vp v = Throws e -> kind_of e = ConversionError.
Proof.
  revert vp v. induction n as [|n IH]; intros vp v; simpl; [done|].
  destruct vp as [|tok vp0]; [done|].
  destruct (new_value type0 tok) eqn:E; [apply IH|].
  intros [= <-]. by eapply new_value_throw.
Qed.

Lemma read_variable_throw op type0 vp v e :
  read_variable op type0 vp v = Throws e -> kind_of e = ConversionError.
Proof.
  revert v. induction vp as [|tok vp0 IH]; intros v; simpl; [done|].
  destruct (std_find op tok); [done|].
  destruct (new_value type0 tok) eqn:E; [apply IH|].
  intros [= <-]. by eapply new_value_throw.
Qed.

Lemma for_options_raise op rest vp u m e m' :
  for_options op rest vp u m = Raise e m' -> kind_of e = ConversionError.
Proof.
  revert vp u m. induction rest as [|o rest' IH]; intros vp u m; simpl; [done|].
  destruct vp as [|tok vp0]; [done|].
  destruct (operator_eq o tok =? 0); [apply IH|].
  unfold read_option.
  destruct (nargs (base o) =? 0); [apply IH|].
  destruct (nargs (base o) >=? 1).
  { destruct (read_fixed _ _ _ _) as [[v1 vp1]|e1|] eqn:E; [apply IH| |done].
    intros [= <- _]. by eapply read_fixed_throw. }
  destruct (nargs (base o) =? variable_args); [|apply IH].
  destruct (read_variable _ _ _ _) as [[v1 vp1]|e1|] eqn:E; [apply IH| |done].
  intros [= <- _]. by eapply read_variable_throw.
Qed.

Lemma optional_scan_raise op vp _remaining m e m' :
  optional_scan op vp _remaining m = Raise e m' -> kind_of e = ConversionError.
Proof.
  remember (length vp) as k eqn:Hk. revert vp _remaining m Hk.
  induction k as [k IH] using lt_wf_ind. intros vp _remaining m ->.
  destruct vp as [|tok vp0]; [by simp optional_scan|].
  rewrite optional_scan_turn.
  destruct (for_options op op (tok :: vp0) false m) as [[vp1 u] m1|e1 m1|] eqn:E;
    [| |done].
  - apply for_options_cursor in E as (_ & _ & Hsame & Hlt). destruct u.
    + specialize (Hlt eq_refl eq_refl).
      destruct vp1; (eapply IH; [|done]); exact Hlt.
    + specialize (Hsame eq_refl) as ->. eapply IH; [|done]. simpl. lia.
  - intros [= <- _]. by eapply for_options_raise.
Qed.

(** C1, on the code. With an option [--count] of size 1 and the tokens
    [--count] alone, phase 1 reads the token at [end()]: [parse] neither
    throws "insufficient number of arguments" nor returns, its behaviour is
    undefined, whatever its two flags. *)
Theorem C1_fixed_option_reads_past_the_end (h s : bool) :
  add_option1 "--count" "count" value_type.Integer 1 ""
    (new_argparse "prog" ["--count"] "" true) = Ok count_parser
  /\ parse h s count_parser = Unspecified.
Proof.
  split; [reflexivity|]. unfold parse, parse_io.
  assert (try_block count_parser = Abort) as ->; [|done].
  unfold try_block. simpl. rewrite optional_scan_turn. reflexivity.
Qed.


(** ** Phase 2 *)

Lemma positional_scan_app pre rest vp m :
  positional_scan (pre ++ rest) vp m =
  match positional_scan pre vp m with
  | Return vp' m' => positional_scan rest vp' m'
  | Raise e m' => Raise e m'
  | Abort => Abort
  end.
Proof.
  revert vp m. induction pre as [|ip pre IH]; intros vp m; simpl; [done|].
  destruct (bind_positional ip vp) as [[v vp']|e]; [apply IH|done].
Qed.

Lemma read_rest_all type0 vp v v' vp' :
  read_rest type0 vp v = Ok (v', vp') ->
  vp' = [] /\ length v' = (length v + length vp)%nat.
Proof.
  revert v. induction vp as [|tok vp0 IH]; intros v; simpl.
  - intros [= <- <-]. split; [done|lia].
  - destruct (new_value type0 tok); [|discriminate].
    intros Hr. apply IH in Hr as [-> Hlen]. split; [done|].
    rewrite Hlen, length_app. simpl. lia.
Qed.

(** C5. If the tokens left by phase 1 are used up when phase 2 reaches the
    positional argument [ip], then [parse] does not return: its [try]
    block throws "insufficient number of arguments", which [parse] passes
    on to a caller that asked for it.  This holds whatever the size of
    [ip]; and a positional argument of size [variable_args] that is bound
    is bound to at least one value, and takes all the tokens that are
    left. *)
Theorem C5_positional_argument_needs_a_token
  (p : argparse) (pre post : list positional_argument) (ip : positional_argument)
  (_remaining : list arg) (m1 m2 : gmap string values) :
  _positional_parsers p = pre ++ ip :: post ->
  optional_scan (_optional_parsers p) (_arguments p) [] (_map p) = Return _remaining m1 ->
  positional_scan pre _remaining m1 = Return [] m2 ->
  try_block p = Raise insufficient m2
  /\ kind_of insufficient = InsufficientArguments
  /\ (forall s, parse false s p = Thrown insufficient (set_map m2 p))
  /\ (forall h s p', parse h s p <> Returned p')
  /\ (forall ip' vp v vp',
        nargs ip' = variable_args -> bind_positional ip' vp = Ok (v, vp') ->
        v <> [] /\ vp' = []).
Proof.
  intros Hpp Hscan Hpre.
  assert (try_block p = Raise insufficient m2) as Htry.
  { unfold try_block. by rewrite Hscan, Hpp, positional_scan_app, Hpre. }
  split; [done|]. split; [done|]. split; [|split].
  - intros s. unfold parse, parse_io. by rewrite Htry.
  - intros h s p' Hp. apply parse_returned in Hp as (r & m & Hr & _). congruence.
  - intros ip' vp v vp' Hsize. unfold bind_positional.
    destruct vp as [|tok vp0]; [discriminate|]. rewrite Hsize. simpl.
    destruct (new_value (type ip') tok); [|discriminate].
    intros Hr. apply read_rest_all in Hr as [-> Hlen]. split; [|done].
    intros ->. simpl in Hlen. lia.
Qed.

(** ** The result map over several calls of [parse] *)

(** The [try] block reads four members of the parser and no other. *)
Lemma try_block_ext p q :
  _optional_parsers q = _optional_parsers p ->
  _positional_parsers q = _positional_parsers p ->
  _arguments q = _arguments p ->
  _map q = _map p ->
  try_block q = try_block p.
Proof. unfold try_block. by intros -> -> -> ->. Qed.

(** C3, as the code has it. [parse] never empties [_map], and an insertion
    leaves a name that is bound as it is: after a [parse] that returned,
    the map is the map [parse] found, extended with the bindings that the
    same arguments and tokens give on an empty map, for the names it did
    not bind yet.  Every earlier binding is kept; and when the map was
    empty at the call, the result is that of every parser with the same
    registered arguments, the same tokens and an empty map. *)
Theorem C3_parse_extends_the_map (h s : bool) (p p' : argparse) :
  parse h s p = Returned p' ->
  (exists r m,
      try_block (set_map ∅ p) = Return r m /\ _map p' = _map p ∪ m)
  /\ (forall k v, _map p !! k = Some v -> _map p' !! k = Some v)
  /\ (_map p = ∅ ->
      forall h' s' q q',
        _optional_parsers q = _optional_parsers p ->
        _positional_parsers q = _positional_parsers p ->
        _arguments q = _arguments p ->
        _map q = ∅ ->
        parse h' s' q = Returned q' -> _map q' = _map p').
Proof.
  intros Hp. apply parse_returned in Hp as (r & m1 & Htry & ->).
  pose proof Htry as Htry0.
  apply try_block_returns_fresh in Htry as (m & Hfresh & ->).
  split; [by exists r, m|]. split.
  - intros k v Hk. simpl. by apply lookup_union_Some_l.
  - intros Hempty h' s' q q' Hop Hpp Hargs Hq Hparse.
    apply parse_returned in Hparse as (r' & m' & Htry' & ->). simpl.
    rewrite (try_block_ext p q) in Htry' by congruence. congruence.
Qed.

(** C9. A second [parse], on the parser as the first one left it, finds
    the same tokens and arguments: with the same flags it returns and
    leaves the parser as it was, and with any flags, if it returns, the
    map is the map of the first run. *)
Theorem C9_parse_twice_same_map (h s : bool) (p p1 : argparse) :
  parse h s p = Returned p1 ->
  parse h s p1 = Returned p1
  /\ (forall h' s' p2, parse h' s' p1 = Returned p2 -> _map p2 = _map p1).
Proof.
  intros Hp. pose proof Hp as Hp0.
  apply parse_returned in Hp as (r & m1 & Htry & Hp1).
  pose proof Htry as Htry0.
  apply try_block_returns_fresh in Htry as (m & Hfresh & Hm1).
  assert (try_block p1 = Return r m1) as Htry1.
  { rewrite try_block_fresh. subst p1. simpl.
    change (set_map ∅ (set_completed true (set_map m1 p)))
      with (set_completed true (set_map ∅ p)).
    assert (try_block (set_completed true (set_map ∅ p)) = try_block (set_map ∅ p))
      as -> by done.
    rewrite Hfresh. simpl. f_equal. subst m1.
    by rewrite <- (assoc_L (∪)), (idemp_L (∪) m). }
  assert (set_completed true (set_map m1 p1) = p1) as Hsame.
  { subst p1. reflexivity. }
  split.
  - unfold parse, parse_io in *. rewrite Htry1, Hsame. rewrite Htry0 in Hp0.
    rewrite <- Hp1 in Hp0. exact Hp0.
  - intros h' s' p2 Hp2. apply parse_returned in Hp2 as (r2 & m2 & Htry2 & ->).
    rewrite Htry1 in Htry2. injection Htry2 as <- <-. by rewrite Hsame.
Qed.

(** ** The bindings of the result map *)

Lemma new_value_inv type0 tok x :
  new_value type0 tok = Ok x -> x = mk_value type0 tok /\ value_ok x.
Proof.
  unfold new_value, value_ok.
  destruct (assert_argument_type (mk_value type0 tok)) as [[]|e] eqn:E; [|discriminate].
  by intros [= <-].
Qed.

Lemma read_fixed_values type0 n vp v v' vp' :
  read_fixed type0 n vp v = Returns (v', vp') ->
  Forall (fun x => value_ok x /\ _type x = type0) v ->
  Forall (fun x => value_ok x /\ _type x = type0) v'
  /\ length v' = (length v + n)%nat.
Proof.
  revert vp v. induction n as [|n IH]; intros vp v; simpl.
  - intros [= <- _] Hv. split; [done|lia].
  - destruct vp as [|tok vp0]; [discriminate|].
    destruct (new_value type0 tok) as [x|e] eqn:E; [|discriminate].
    apply new_value_inv in E as [-> Hok]. intros Hr Hv.
    apply IH in Hr as [Hall Hlen].
    + split; [done|]. rewrite Hlen, length_app. simpl. lia.
    + apply Forall_app. split; [done|]. by constructor.
Qed.

Lemma read_variable_values op type0 vp v v' vp' :
  read_variable op type0 vp v = Returns (v', vp') ->
  Forall (fun x => value_ok x /\ _type x = type0) v ->
  Forall (fun x => value_ok x /\ _type x = type0) v'.
Proof.
  revert v. induction vp as [|tok vp0 IH]; intros v; simpl.
  - by intros [= <- _].
  - destruct (std_find op tok); [by intros [= <- _]|].
    destruct (new_value type0 tok) as [x|e] eqn:E; [|discriminate].
    apply new_value_inv in E as [-> Hok]. intros Hr Hv. apply IH in Hr; [done|].
    apply Forall_app. split; [done|]. by constructor.
Qed.

Lemma read_positional_values type0 n vp v v' vp' :
  read_positional type0 n vp v = Ok (v', vp') ->
  Forall (fun x => value_ok x /\ _type x = type0) v ->
  Forall (fun x => value_ok x /\ _type x = type0) v'
  /\ length v' = (length v + n)%nat.
Proof.
  revert vp v. induction n as [|n IH]; intros vp v; simpl.
  - intros [= <- _] Hv. split; [done|lia].
  - destruct vp as [|tok vp0]; [discriminate|].
    destruct (new_value type0 tok) as [x|e] eqn:E; [|discriminate].
    apply new_value_inv in E as [-> Hok]. intros Hr Hv.
    apply IH in Hr as [Hall Hlen].
    + split; [done|]. rewrite Hlen, length_app. simpl. lia.
    + apply Forall_app. split; [done|]. by constructor.
Qed.

Lemma read_rest_values type0 vp v v' vp' :
  read_rest type0 vp v = Ok (v', vp') ->
  Forall (fun x => value_ok x /\ _type x = type0) v ->
  Forall (fun x => value_ok x /\ _type x = type0) v'.
Proof.
  revert v. induction vp as [|tok vp0 IH]; intros v; simpl.
  - by intros [= <- _].
  - destruct (new_value type0 tok) as [x|e] eqn:E; [|discriminate].
    apply new_value_inv in E as [-> Hok]. intros Hr Hv. apply IH in Hr; [done|].
    apply Forall_app. split; [done|]. by constructor.
Qed.

Lemma Forall_and_l {A : Type} (P Q : A -> Prop) l :
  Forall (fun x => P x /\ Q x) l -> Forall P l.
Proof. intros Hl. eapply Forall_impl; [exact Hl|]. by intros x [? ?]. Qed.

Lemma Forall_and_r {A : Type} (P Q : A -> Prop) l :
  Forall (fun x => P x /\ Q x) l -> Forall Q l.
Proof. intros Hl. eapply Forall_impl; [exact Hl|]. by intros x [? ?]. Qed.

Lemma vtrue_ok : value_ok (mk_value value_type.Bool "true").
Proof. reflexivity. Qed.

Lemma read_option_binding op o vp v vp' :
  read_option op o vp = Returns (Some v, vp') ->
  Forall value_ok v /\ option_binding o v.
Proof.
  unfold read_option, option_binding.
  destruct (Z.eqb_spec (nargs (base o)) 0) as [Hz|Hnz].
  { intros [= <- _]. split; [by repeat constructor|].
    split; [done|]. split; [done|]. split; [lia|by left]. }
  destruct (nargs (base o) >=? 1) eqn:Hge; rewrite Z.geb_leb in Hge.
  - apply Z.leb_le in Hge.
    destruct (read_fixed _ _ _ _) as [[v1 vp1]| |] eqn:E; try discriminate.
    intros [= <- _]. apply read_fixed_values in E as [Hall Hlen]; [|constructor].
    split; [exact (Forall_and_l _ _ _ Hall)|]. split; [done|].
    split; [intros _; exact (Forall_and_r _ _ _ Hall)|].
    split; [|right; left; lia]. intros _. rewrite Hlen. simpl. lia.
  - apply Z.leb_gt in Hge.
    destruct (Z.eqb_spec (nargs (base o)) variable_args) as [Hv|Hnv]; [|discriminate].
    destruct (read_variable _ _ _ _) as [[v1 vp1]| |] eqn:E; try discriminate.
    intros [= <- _]. apply read_variable_values in E; [|constructor].
    split; [exact (Forall_and_l _ _ _ E)|]. split; [done|].
    split; [intros _; exact (Forall_and_r _ _ _ E)|].
    split; [lia|by right; right].
Qed.

Lemma read_option_nothing op o vp vp' :
  read_option op o vp = Returns (None, vp') -> nargs (base o) < variable_args.
Proof.
  unfold read_option.
  destruct (Z.eqb_spec (nargs (base o)) 0); [discriminate|].
  destruct (nargs (base o) >=? 1) eqn:Hge; rewrite Z.geb_leb in Hge.
  { destruct (read_fixed _ _ _ _) as [[v1 vp1]| |]; discriminate. }
  apply Z.leb_gt in Hge.
  destruct (Z.eqb_spec (nargs (base o)) variable_args).
  { destruct (read_variable _ _ _ _) as [[v1 vp1]| |]; discriminate. }
  unfold variable_args in *. lia.
Qed.

Lemma bind_positional_binding ip vp v vp' :
  bind_positional ip vp = Ok (v, vp') ->
  Forall value_ok v /\ positional_binding ip v.
Proof.
  unfold bind_positional, positional_binding.
  destruct vp as [|tok vp0]; [discriminate|].
  destruct (nargs ip >=? 1) eqn:Hge; rewrite Z.geb_leb in Hge.
  - apply Z.leb_le in Hge.
    intros E. apply read_positional_values in E as [Hall Hlen]; [|constructor].
    split; [exact (Forall_and_l _ _ _ Hall)|].
    split; [exact (Forall_and_r _ _ _ Hall)|].
    split; [intros _; rewrite Hlen; simpl; lia|].
    unfold variable_args. split; lia.
  - apply Z.leb_gt in Hge.
    destruct (Z.eqb_spec (nargs ip) variable_args) as [Hv|Hnv].
    + intros E. pose proof E as E'. apply read_rest_values in E; [|constructor].
      split; [exact (Forall_and_l _ _ _ E)|].
      split; [exact (Forall_and_r _ _ _ E)|].
      split; [lia|]. split; [|lia].
      intros _ ->. simpl in E'. destruct (new_value (type ip) tok); [|discriminate].
      apply read_rest_all in E' as [_ Hlen]. simpl in Hlen. lia.
    + intros [= <- _]. split; [constructor|]. split; [constructor|].
      split; [lia|]. done.
Qed.

Lemma map_insert_justified op pp k vs m :
  bindings_justified op pp m -> justified op pp k vs ->
  bindings_justified op pp (map_insert k vs m).
Proof.
  intros Hm Hk k' vs'. unfold map_insert.
  destruct (m !! k) eqn:E; [apply Hm|].
  destruct (decide (k = k')) as [<-|Hne].
  - rewrite lookup_insert_eq. by intros [= <-].
  - rewrite lookup_insert_ne by done. apply Hm.
Qed.

Lemma for_options_justified op pp rest vp u m m' :
  (forall o, o ∈ rest -> o ∈ op) ->
  bindings_justified op pp m ->
  final_map (for_options op rest vp u m) = Some m' ->
  bindings_justified op pp m'.
Proof.
  revert vp u m. induction rest as [|o rest' IH]; intros vp u m Hin Hm; simpl.
  { by intros [= <-]. }
  destruct vp as [|tok vp0]; [by intros [= <-]|].
  assert (forall o', o' ∈ rest' -> o' ∈ op) as Hin'.
  { intros o' Ho'. apply Hin. by apply list_elem_of_further. }
  destruct (operator_eq o tok =? 0); [by apply IH|].
  destruct (read_option op o vp0) as [[[v1|] vp1]|e|] eqn:E; simpl.
  - apply IH; [done|]. apply map_insert_justified; [done|].
    apply read_option_binding in E as [Hok Hb]. split; [done|]. right.
    exists o. split; [apply Hin, list_elem_of_here|done].
  - by apply IH.
  - by intros [= <-].
  - discriminate.
Qed.

Lemma optional_scan_justified op pp vp _remaining m m' :
  bindings_justified op pp m ->
  final_map (optional_scan op vp _remaining m) = Some m' ->
  bindings_justified op pp m'.
Proof.
  remember (length vp) as k eqn:Hk. revert vp _remaining m Hk.
  induction k as [k IH] using lt_wf_ind. intros vp _remaining m -> Hm.
  destruct vp as [|tok vp0]; [simp optional_scan; by intros [= <-]|].
  rewrite optional_scan_turn.
  destruct (for_options op op (tok :: vp0) false m) as [[vp1 u] m1|e m1|] eqn:E.
  - assert (bindings_justified op pp m1) as Hm1.
    { eapply (for_options_justified op pp op); [done|exact Hm|by rewrite E]. }
    apply for_options_cursor in E as (_ & _ & Hsame & Hlt). destruct u.
    + specialize (Hlt eq_refl eq_refl).
      destruct vp1; (eapply IH; [|done|done]); exact Hlt.
    + specialize (Hsame eq_refl) as ->. eapply IH; [|done|done]. simpl. lia.
  - simpl. intros [= <-].
    eapply (for_options_justified op pp op); [done|exact Hm|by rewrite E].
  - discriminate.
Qed.

Lemma positional_scan_justified op pp rest vp m m' :
  (forall ip, ip ∈ rest -> ip ∈ pp) ->
  bindings_justified op pp m ->
  final_map (positional_scan rest vp m) = Some m' ->
  bindings_justified op pp m'.
Proof.
  revert vp m. induction rest as [|ip rest' IH]; intros vp m Hin Hm; simpl.
  { by intros [= <-]. }
  destruct (bind_positional ip vp) as [[v vp']|e] eqn:E; simpl; [|by intros [= <-]].
  apply IH.
  - intros ip' Hip'. apply Hin. by apply list_elem_of_further.
  - apply map_insert_justified; [done|].
    apply bind_positional_binding in E as [Hok Hb]. split; [done|]. left.
    exists ip. split; [apply Hin, list_elem_of_here|done].
Qed.

Lemma try_block_justified p m' :
  bindings_justified (_optional_parsers p) (_positional_parsers p) (_map p) ->
  final_map (try_block p) = Some m' ->
  bindings_justified (_optional_parsers p) (_positional_parsers p) m'.
Proof.
  intros Hm. unfold try_block.
  destruct (optional_scan _ _ _ _) as [r m1|e m1|] eqn:E; simpl; [| |discriminate].
  - apply positional_scan_justified; [done|].
    eapply optional_scan_justified; [exact Hm|by rewrite E].
  - intros [= <-]. eapply optional_scan_justified; [exact Hm|by rewrite E].
Qed.

Lemma bindings_justified_more op pp op' pp' m :
  bindings_justified op pp m ->
  bindings_justified (op ++ op') (pp ++ pp') m.
Proof.
  intros Hm k vs Hk. destruct (Hm k vs Hk) as [Hok [(ip & Hip & Hb)|(o & Ho & Hb)]].
  - split; [done|]. left. exists ip. split; [|done]. apply elem_of_app. by left.
  - split; [done|]. right. exists o. split; [|done]. apply elem_of_app. by left.
Qed.

Lemma reachable_bindings_justified with_help p :
  reachable with_help p ->
  bindings_justified (_optional_parsers p) (_positional_parsers p) (_map p).
Proof.
  induction 1 as [argv0 argv desc|desc p _ IH|nm ty n com p p' _ IH Hadd
                 |dir nm ty n com p p' _ IH Hadd|dirs nm ty n com p p' _ IH Hadd
                 |h s p p' _ IH Hp|h s e p p' _ IH Hp|h s p p' _ IH Hp].
  - intros k vs. simpl. by rewrite lookup_empty.
  - exact IH.
  - unfold add_argument in Hadd. destruct (String.eqb nm "help"); [discriminate|].
    destruct (_varargs p); [discriminate|]. injection Hadd as <-. simpl.
    rewrite <- (app_nil_r (_optional_parsers p)).
    by apply bindings_justified_more.
  - unfold add_option1 in Hadd. destruct (String.eqb nm "help"); [discriminate|].
    injection Hadd as <-. simpl. rewrite <- (app_nil_r (_positional_parsers p)).
    by apply bindings_justified_more.
  - unfold add_option in Hadd. destruct (String.eqb nm "help"); [discriminate|].
    injection Hadd as <-. simpl. rewrite <- (app_nil_r (_positional_parsers p)).
    by apply bindings_justified_more.
  - apply parse_returned in Hp as (r & m1 & Htry & ->). simpl.
    apply try_block_justified; [done|by rewrite Htry].
  - apply parse_thrown in Hp as (_ & m1 & Htry & ->). simpl.
    apply try_block_justified; [done|by rewrite Htry].
  - apply parse_wrong_type in Hp as [(m1 & -> & [(r & Htry & _)|(e & Htry & _)]) _].
    all: simpl; apply try_block_justified; [done|by rewrite Htry].
Qed.

(** X1. On every parser a program can build, each value of the result map
    is as its constructor checked it: its type is not [Null] and its text
    converts to its type, so that reading it at its own type does not
    throw. *)
Theorem X1_bound_values_convert
  (with_help : bool) (p : argparse) (k : arg) (vs : values) (v : value) :
  reachable with_help p ->
  _map p !! k = Some vs ->
  v ∈ vs ->
  match _type v with
  | value_type.Null => False
  | value_type.Bool => exists b : bool, value_get (T := bool) v = Ok b
  | value_type.Integer => exists n : Z, value_get (T := Z) v = Ok n
  | value_type.Float => stod_converts (_value v) = true
  | value_type.String => value_get (T := string) v = Ok (_value v)
  end.
Proof.
  intros Hr Hk Hv. apply reachable_bindings_justified in Hr.
  destruct (Hr k vs Hk) as [Hok _]. eapply Forall_forall in Hok; [|exact Hv].
  unfold value_ok, assert_argument_type in Hok.
  unfold value_get, get_bool, get_int64_t, get_arg.
  destruct (_type v); try discriminate.
  - destruct (convert_bool v) as [b|e]; [by exists b|discriminate].
  - destruct (convert_integer v) as [n|e]; [by exists n|discriminate].
  - unfold convert_float in Hok. by destruct (stod_converts (_value v)).
  - done.
Qed.

(** X2. Every binding of the result map of a parser a program can build is
    one that [parse] makes for a registered argument of that name: for a
    positional argument, values of its type, as many as its size when the
    size is positive, at least one when it is [variable_args], none
    otherwise; for an option, the single boolean "true" when its size is
    0, else values of its type, as many as its size when it is positive. *)
Theorem X2_bindings_come_from_registered_arguments
  (with_help : bool) (p : argparse) (k : arg) (vs : values) :
  reachable with_help p ->
  _map p !! k = Some vs ->
  (exists ip, ip ∈ _positional_parsers p /\ name ip = k /\ positional_binding ip vs)
  \/ (exists o, o ∈ _optional_parsers p /\ name (base o) = k /\ option_binding o vs).
Proof.
  intros Hr Hk. apply reachable_bindings_justified in Hr.
  by destruct (Hr k vs Hk) as [_ Hj].
Qed.

(** X3. A name that no registered argument carries is never bound:
    [find] answers false for it, and [get] and [getall] throw (not parsed
    or not found) whatever the requested type. *)
Theorem X3_unregistered_name_is_not_found
  (with_help : bool) (p : argparse) (k : arg) :
  reachable with_help p ->
  ~ registered k p ->
  find k p = false
  /\ forall (T : Type) (G : ValueGet T),
       (get (T := T) k p = Throws not_parsed \/ get (T := T) k p = Throws not_found)
       /\ (getall (T := T) k p = Throw not_parsed
           \/ getall (T := T) k p = Throw not_found).
Proof.
  intros Hr Hnot. apply reachable_bindings_justified in Hr.
  assert (_map p !! k = None) as Hnone.
  { destruct (_map p !! k) as [vs|] eqn:Hk; [|done]. exfalso. apply Hnot.
    destruct (Hr k vs Hk) as [_ [(ip & ? & ? & _)|(o & ? & ? & _)]];
      [left|right]; eauto. }
  split.
  - unfold find. rewrite Hnone. apply bool_decide_eq_false. by intros [? ?].
  - intros T G. unfold get, getall. rewrite Hnone.
    destruct (_completed p); simpl; auto.
Qed.

(** X4. On a parser a program can build, [get] indexes an empty vector
    (undefined behaviour) only for a name carried by an option of size
    [variable_args] or by a positional argument whose size is neither
    positive nor [variable_args]; for such a binding [getall] returns the
    empty vector. *)
Theorem X4_get_on_an_empty_binding
  (with_help : bool) (p : argparse) (k : arg) (T : Type) (G : ValueGet T) :
  reachable with_help p ->
  get (T := T) k p = Undefined ->
  getall (T := T) k p = Ok []
  /\ ((exists o, o ∈ _optional_parsers p /\ name (base o) = k
                 /\ nargs (base o) = variable_args)
      \/ (exists ip, ip ∈ _positional_parsers p /\ name ip = k
                     /\ nargs ip < 1 /\ nargs ip <> variable_args)).
Proof.
  intros Hr. unfold get, getall. destruct (_completed p); simpl; [|discriminate].
  destruct (_map p !! k) as [vs|] eqn:Hk; [|discriminate].
  destruct vs as [|v vs]; [|by destruct (value_get v)].
  intros _. split; [done|].
  apply reachable_bindings_justified in Hr.
  destruct (Hr k [] Hk)
    as [_ [(ip & Hip & Hname & _ & Hfix & Hvar & _)
          |(o & Ho & Hname & Hsw & _ & Hfix & Hsize)]].
  - right. exists ip. split; [done|]. split; [done|].
    split; [|by intros ?%Hvar]. destruct (Z.le_gt_cases 1 (nargs ip)) as [Hle|?]; [|lia].
    specialize (Hfix Hle). simpl in Hfix. lia.
  - left. exists o. split; [done|]. split; [done|].
    destruct Hsize as [Hz|[Hle|?]]; [|specialize (Hfix Hle); simpl in Hfix; lia|done].
    by specialize (Hsw Hz).
Qed.

(** ** What a successful [parse] binds *)

Lemma map_insert_keeps k v (m : gmap string values) k' :
  is_Some (m !! k') -> is_Some (map_insert k v m !! k').
Proof.
  intros Hk'. unfold map_insert. destruct (m !! k) eqn:E; [done|].
  destruct (decide (k = k')) as [<-|Hne]; [by rewrite lookup_insert_eq|].
  by rewrite lookup_insert_ne.
Qed.

Lemma map_insert_bound k v (m : gmap string values) :
  is_Some (map_insert k v m !! k).
Proof.
  unfold map_insert. destruct (m !! k) eqn:E; [by rewrite E|].
  by rewrite lookup_insert_eq.
Qed.

Lemma positional_scan_keeps rest vp m m' k :
  final_map (positional_scan rest vp m) = Some m' ->
  is_Some (m !! k) -> is_Some (m' !! k).
Proof.
  revert vp m. induction rest as [|ip rest' IH]; intros vp m; simpl.
  { by intros [= <-]. }
  destruct (bind_positional ip vp) as [[v vp']|e]; simpl; [|by intros [= <-]].
  intros Hr Hk. eapply IH; [exact Hr|]. by apply map_insert_keeps.
Qed.

Lemma positional_scan_binds rest vp m l m' ip :
  positional_scan rest vp m = Return l m' ->
  ip ∈ rest -> is_Some (m' !! name ip).
Proof.
  revert vp m. induction rest as [|ip0 rest' IH]; intros vp m; simpl.
  { by intros _ ?%elem_of_nil. }
  destruct (bind_positional ip0 vp) as [[v vp']|e]; [|discriminate].
  intros Hr [->|Hin]%elem_of_cons.
  - eapply positional_scan_keeps; [by rewrite Hr|]. apply map_insert_bound.
  - by eapply IH.
Qed.

(** X5. After a [parse] that returned, every registered positional
    argument is bound: [find] answers true for its name, and [get] and
    [getall] pass their two tests ("arguments are not parsed.", "argument
    not found.") and go on to convert the values bound to it. *)
Theorem X5_parse_binds_every_positional
  (h s : bool) (p p' : argparse) (ip : positional_argument) :
  parse h s p = Returned p' ->
  ip ∈ _positional_parsers p ->
  find (name ip) p' = true
  /\ exists vs,
       _map p' !! name ip = Some vs
       /\ forall (T : Type) (G : ValueGet T),
            get (T := T) (name ip) p'
            = match vs with
              | [] => Undefined
              | v :: _ => of_result (value_get v)
              end
            /\ getall (T := T) (name ip) p' = get_each vs [].
Proof.
  intros Hp Hip. apply parse_returned in Hp as (r & m1 & Htry & ->).
  assert (is_Some (m1 !! name ip)) as [vs Hvs].
  { unfold try_block in Htry.
    destruct (optional_scan _ _ _ _) as [r0 m0|e m0|]; try discriminate.
    by eapply positional_scan_binds. }
  split.
  - unfold find. simpl. rewrite Hvs. by apply bool_decide_eq_true.
  - exists vs. split; [done|]. intros T G. unfold get, getall. simpl.
    by rewrite Hvs.
Qed.

(** ** The tokens through phase 1 *)

Lemma for_options_no_match op rest tok vp0 u m :
  std_find rest tok = false ->
  for_options op rest (tok :: vp0) u m = Return (tok :: vp0, u) m.
Proof.
  revert u m. induction rest as [|o rest' IH]; intros u m; simpl; [done|].
  destruct (operator_eq o tok =? 0); [apply IH|discriminate].
Qed.

Lemma for_options_not_updated op rest tok vp0 m vp' m' :
  for_options op rest (tok :: vp0) false m = Return (vp', false) m' ->
  std_find rest tok = false.
Proof.
  revert m. induction rest as [|o rest' IH]; intros m; simpl; [done|].
  destruct (operator_eq o tok =? 0); [apply IH|].
  destruct (read_option op o vp0) as [[[v1|] vp1]| |]; try discriminate.
  all: intros Hr; apply for_options_cursor in Hr as (_ & Hu & _).
  all: by specialize (Hu eq_refl).
Qed.



(** X6. When no token is a directive of a registered option, phase 1
    leaves the map as it is and hands every token, in order, to phase 2. *)
Theorem X6_tokens_without_directives_pass_through
  (op : list optional_argument) (vp _remaining : list arg) (m : gmap string values) :
  Forall (fun t => ~ is_directive op t) vp ->
  optional_scan op vp _remaining m = Return (_remaining ++ vp) m.
Proof.
  intros Hvp. revert _remaining.
  induction vp as [|tok vp0 IH]; intros _remaining.
  - simp optional_scan. by rewrite app_nil_r.
  - apply Forall_cons in Hvp as [Htok Hvp].
    assert (std_find op tok = false) as Hf.
    { destruct (std_find op tok) eqn:E; [|done]. by apply std_find_spec in E. }
    rewrite optional_scan_turn, for_options_no_match by done.
    rewrite IH by done. by rewrite <- app_assoc.
Qed.

Lemma read_fixed_suffix type0 n vp v v' vp' :
  read_fixed type0 n vp v = Returns (v', vp') -> vp' `suffix_of` vp.
Proof.
  revert vp v. induction n as [|n IH]; intros vp v; simpl.
  - by intros [= _ <-].
  - destruct vp as [|tok vp0]; [discriminate|].
    destruct (new_value type0 tok); [|discriminate].
    intros Hr. apply IH in Hr. by apply suffix_cons_r.
Qed.

Lemma read_variable_suffix op type0 vp v v' vp' :
  read_variable op type0 vp v = Returns (v', vp') -> vp' `suffix_of` vp.
Proof.
  revert v. induction vp as [|tok vp0 IH]; intros v; simpl.
  - by intros [= _ <-].
  - destruct (std_find op tok); [by intros [= _ <-]|].
    destruct (new_value type0 tok); [|discriminate].
    intros Hr. apply IH in Hr. by apply suffix_cons_r.
Qed.

Lemma read_option_suffix op o vp ov vp' :
  read_option op o vp = Returns (ov, vp') -> vp' `suffix_of` vp.
Proof.
  unfold read_option.
  destruct (nargs (base o) =? 0); [by intros [= _ <-]|].
  destruct (nargs (base o) >=? 1).
  - destruct (read_fixed _ _ _ _) as [[v1 vp1]| |] eqn:E; try discriminate.
    intros [= _ <-]. eapply read_fixed_suffix, E.
  - destruct (nargs (base o) =? variable_args); [|by intros [= _ <-]].
    destruct (read_variable _ _ _ _) as [[v1 vp1]| |] eqn:E; try discriminate.
    intros [= _ <-]. eapply read_variable_suffix, E.
Qed.

Lemma for_options_suffix op rest vp u m vp' u' m' :
  for_options op rest vp u m = Return (vp', u') m' -> vp' `suffix_of` vp.
Proof.
  revert vp u m. induction rest as [|o rest' IH]; intros vp u m; simpl.
  { by intros [= <- _ _]. }
  destruct vp as [|tok vp0]; [by intros [= <- _ _]|].
  destruct (operator_eq o tok =? 0); [apply IH|].
  destruct (read_option op o vp0) as [[[v1|] vp1]| |] eqn:E; try discriminate.
  all: apply read_option_suffix in E.
  all: intros Hr; apply IH in Hr.
  all: apply suffix_cons_r; by etrans.
Qed.

(** X7. The tokens phase 1 hands to phase 2 are tokens of the input, in
    their order, and none of them is a directive of a registered option. *)
Theorem X7_remaining_tokens_are_not_directives
  (op : list optional_argument) (vp _remaining r : list arg)
  (m m' : gmap string values) :
  optional_scan op vp _remaining m = Return r m' ->
  exists r', r = _remaining ++ r'
             /\ r' `sublist_of` vp
             /\ Forall (fun t => ~ is_directive op t) r'.
Proof.
  remember (length vp) as k eqn:Hk. revert vp _remaining m Hk.
  induction k as [k IH] using lt_wf_ind. intros vp _remaining m ->.
  destruct vp as [|tok vp0].
  { simp optional_scan. intros [= <- _]. exists []. by rewrite app_nil_r. }
  rewrite optional_scan_turn.
  destruct (for_options op op (tok :: vp0) false m) as [[vp1 u] m1|e m1|] eqn:E;
    [| discriminate | discriminate].
  pose proof (for_options_suffix _ _ _ _ _ _ _ _ E) as [pre Hpre].
  pose proof (for_options_cursor _ _ _ _ _ _ _ _ E) as (_ & _ & Hsame & Hlt).
  destruct u.
  - specialize (Hlt eq_refl eq_refl). intros Hr.
    assert (optional_scan op vp1 _remaining m1 = Return r m') as Hr'.
    { by destruct vp1. }
    eapply IH in Hr' as (r' & -> & Hsub & Hnd); [|exact Hlt|done].
    exists r'. split; [done|]. split; [|done].
    rewrite Hpre. by apply sublist_inserts_l.
  - specialize (Hsame eq_refl) as ->. intros Hr.
    apply for_options_not_updated in E.
    eapply (IH (length vp0)) in Hr as (r' & -> & Hsub & Hnd); [|simpl; lia|done].
    exists (tok :: r'). split; [by rewrite <- app_assoc|].
    split; [by apply sublist_skip|]. constructor; [|done].
    intros Hd. apply std_find_spec in Hd. congruence.
Qed.

(** ** The tokens through phase 2 *)

Lemma read_positional_spec type0 n vp v v' vp' :
  read_positional type0 n vp v = Ok (v', vp') ->
  (n <= length vp)%nat
  /\ v' = v ++ (mk_value type0 <$> take n vp)
  /\ vp' = drop n vp.
Proof.
  revert vp v. induction n as [|n IH]; intros vp v; simpl.
  - intros [= <- <-]. rewrite app_nil_r. split; [lia|done].
  - destruct vp as [|tok vp0]; [discriminate|].
    destruct (new_value type0 tok) as [x|e] eqn:E; [|discriminate].
    apply new_value_inv in E as [-> _]. intros Hr.
    apply IH in Hr as (Hlen & -> & ->). simpl.
    split; [lia|]. by rewrite <- app_assoc.
Qed.

Lemma read_positional_enough type0 n vp v :
  (n <= length vp)%nat ->
  Forall (fun t => new_value type0 t = Ok (mk_value type0 t)) (take n vp) ->
  read_positional type0 n vp v
  = Ok (v ++ (mk_value type0 <$> take n vp), drop n vp).
Proof.
  revert vp v. induction n as [|n IH]; intros vp v Hlen Hconv; simpl.
  - by rewrite app_nil_r.
  - destruct vp as [|tok vp0]; [simpl in Hlen; lia|]. simpl in *.
    apply Forall_cons in Hconv as [-> Hconv].
    rewrite IH by (done || lia). by rewrite <- app_assoc.
Qed.

Lemma read_positional_short type0 n vp v :
  (length vp < n)%nat ->
  Forall (fun t => new_value type0 t = Ok (mk_value type0 t)) vp ->
  read_positional type0 n vp v = Throw insufficient.
Proof.
  revert vp v. induction n as [|n IH]; intros vp v Hlen Hconv; [lia|].
  destruct vp as [|tok vp0]; simpl; [done|].
  apply Forall_cons in Hconv as [-> Hconv]. apply IH; [simpl in Hlen; lia|done].
Qed.

(** X8. A positional argument of positive size [n] binds exactly the next
    [n] tokens, in order, each made a value of its type, and leaves the
    tokens after them to the positional arguments that follow.  It does so
    whenever [n] tokens are left and convert; when fewer are left, and
    convert, it throws "insufficient number of arguments". *)
Theorem X8_fixed_positional_takes_its_size
  (ip : positional_argument) (vp : list arg) :
  1 <= nargs ip ->
  let n := Z.to_nat (nargs ip) in
  (forall v vp', bind_positional ip vp = Ok (v, vp') ->
     (n <= length vp)%nat
     /\ v = (mk_value (type ip) <$> take n vp) /\ vp' = drop n vp)
  /\ ((n <= length vp)%nat ->
      Forall (fun t => new_value (type ip) t = Ok (mk_value (type ip) t)) (take n vp) ->
      bind_positional ip vp = Ok (mk_value (type ip) <$> take n vp, drop n vp))
  /\ ((length vp < n)%nat ->
      Forall (fun t => new_value (type ip) t = Ok (mk_value (type ip) t)) vp ->
      bind_positional ip vp = Throw insufficient).
Proof.
  intros Hsize n.
  assert ((nargs ip >=? 1) = true) as Hge.
  { rewrite Z.geb_leb. by apply Z.leb_le. }
  assert (1 <= n)%nat as Hn by (unfold n; lia).
  unfold bind_positional. rewrite Hge. split; [|split].
  - intros v vp'. destruct vp as [|tok vp0]; [discriminate|].
    intros Hr. by apply read_positional_spec in Hr.
  - intros Hlen Hconv. destruct vp as [|tok vp0]; [simpl in Hlen; lia|].
    by rewrite read_positional_enough.
  - intros Hlen Hconv. destruct vp as [|tok vp0]; [done|].
    by apply read_positional_short.
Qed.

Lemma read_positional_more type0 n vp v v' vp' extra :
  read_positional type0 n vp v = Ok (v', vp') ->
  read_positional type0 n (vp ++ extra) v = Ok (v', vp' ++ extra).
Proof.
  revert vp v. induction n as [|n IH]; intros vp v; simpl.
  - by intros [= <- <-].
  - destruct vp as [|tok vp0]; [discriminate|]. simpl.
    destruct (new_value type0 tok); [apply IH|discriminate].
Qed.

Lemma bind_positional_more ip vp v vp' extra :
  nargs ip <> variable_args ->
  bind_positional ip vp = Ok (v, vp') ->
  bind_positional ip (vp ++ extra) = Ok (v, vp' ++ extra).
Proof.
  intros Hnv. unfold bind_positional.
  destruct vp as [|tok vp0]; [discriminate|]. simpl.
  destruct (nargs ip >=? 1).
  - apply (read_positional_more _ _ (tok :: vp0)).
  - destruct (Z.eqb_spec (nargs ip) variable_args); [done|].
    by intros [= <- <-].
Qed.

(** X9. Phase 2 never objects to tokens it has no use for: when no
    positional argument has the size [variable_args], tokens added after
    those of a scan that succeeds change nothing to what is bound; they
    are left over, and [parse] drops what is left over. *)
Theorem X9_surplus_tokens_are_left_over
  (pp : list positional_argument) (vp extra left : list arg)
  (m m' : gmap string values) :
  Forall (fun ip => nargs ip <> variable_args) pp ->
  positional_scan pp vp m = Return left m' ->
  positional_scan pp (vp ++ extra) m = Return (left ++ extra) m'.
Proof.
  intros Hpp. revert vp m.
  induction pp as [|ip pp' IH]; intros vp m; simpl.
  - by intros [= <- <-].
  - apply Forall_cons in Hpp as [Hip Hpp].
    destruct (bind_positional ip vp) as [[v vp']|e] eqn:E; [|discriminate].
    rewrite (bind_positional_more _ _ _ _ extra Hip E). by apply IH.
Qed.

(** ** Queries *)

Lemma get_each_spec {T : Type} `{ValueGet T} (varr : values) (acc l : list T) :
  get_each varr acc = Ok l ->
  exists xs, l = acc ++ xs /\ Forall2 (fun v x => value_get v = Ok x) varr xs.
Proof.
  revert acc. induction varr as [|v rest IH]; intros acc; simpl.
  - intros [= <-]. exists []. by rewrite app_nil_r.
  - destruct (value_get v) as [x|e] eqn:E; [|discriminate].
    intros Hr. apply IH in Hr as (xs & -> & Hxs).
    exists (x :: xs). split; [by rewrite <- app_assoc|]. by constructor.
Qed.

(** X10. When [getall] returns, it returns one element for each value
    bound to the name, in their order, each the value read at the
    requested type; [get] then returns the first of them, and indexes an
    empty vector (undefined behaviour) when there is none. *)
Theorem X10_get_is_the_first_of_getall
  (T : Type) (G : ValueGet T) (k : arg) (p : argparse) (l : list T) :
  getall (T := T) k p = Ok l ->
  (exists vs, _map p !! k = Some vs
              /\ Forall2 (fun v x => value_get v = Ok x) vs l)
  /\ get (T := T) k p = match l with
                        | [] => Undefined
                        | x :: _ => Returns x
                        end.
Proof.
  unfold getall, get. destruct (_completed p); simpl; [|discriminate].
  destruct (_map p !! k) as [vs|]; [|discriminate].
  intros Hr. apply get_each_spec in Hr as (xs & -> & Hxs). simpl.
  split; [by exists vs|].
  destruct Hxs as [|v x vs' xs' Hv _]; [done|]. simpl. by rewrite Hv.
Qed.

(** ** What [parse] throws *)

Lemma read_positional_throw type0 n vp v e :
  read_positional type0 n vp v = Throw e ->
  kind_of e = ConversionError \/ e = insufficient.
Proof.
  revert vp v. induction n as [|n IH]; intros vp v; simpl; [done|].
  destruct vp as [|tok vp0]; [intros [= <-]; by right|].
  destruct (new_value type0 tok) eqn:E; [apply IH|].
  intros [= <-]. left. by eapply new_value_throw.
Qed.

Lemma read_rest_throw type0 vp v e :
  read_rest type0 vp v = Throw e -> kind_of e = ConversionError.
Proof.
  revert v. induction vp as [|tok vp0 IH]; intros v; simpl; [done|].
  destruct (new_value type0 tok) eqn:E; [apply IH|].
  intros [= <-]. by eapply new_value_throw.
Qed.

Lemma positional_scan_raise pp vp m e m' :
  positional_scan pp vp m = Raise e m' ->
  kind_of e = ConversionError \/ e = insufficient.
Proof.
  revert vp m. induction pp as [|ip pp' IH]; intros vp m; simpl; [done|].
  destruct (bind_positional ip vp) as [[v vp']|e1] eqn:E; [apply IH|].
  intros [= <- _]. unfold bind_positional in E.
  destruct vp as [|tok vp0]; [injection E as <-; by right|].
  destruct (nargs ip >=? 1); [by eapply read_positional_throw|].
  destruct (nargs ip =? variable_args); [|discriminate].
  left. by eapply read_rest_throw.
Qed.

(** ** Registration and the result map *)

(** X12. A registration that succeeds touches neither the tokens nor the
    result map, so [find] answers as before; but it clears [_completed],
    so [get] and [getall] throw "arguments are not parsed." for every
    name, bound or not, until [parse] has run again. *)
Theorem X12_registration_locks_the_queries
  (p p' : argparse) (name0 dir com : arg) (dirs : list arg)
  (type0 : value_type) (n : Z) :
  add_argument name0 type0 n com p = Ok p'
  \/ add_option1 dir name0 type0 n com p = Ok p'
  \/ add_option dirs name0 type0 n com p = Ok p' ->
  _map p' = _map p
  /\ _arguments p' = _arguments p
  /\ (forall k, find k p' = find k p)
  /\ (forall (T : Type) (G : ValueGet T) (k : arg),
        get (T := T) k p' = Throws not_parsed
        /\ getall (T := T) k p' = Throw not_parsed).
Proof.
  unfold add_argument, add_option1, add_option.
  destruct (String.eqb name0 "help"); [by intros [[=]|[[=]|[=]]]|].
  intros [Hadd|[Hadd|Hadd]].
  1: destruct (_varargs p); [discriminate|].
  all: injection Hadd as <-; done.
Qed.

(** ** Parsers whose options are all switches *)

Lemma map_insert_subseteq k v (m : gmap string values) : m ⊆ map_insert k v m.
Proof.
  unfold map_insert. destruct (m !! k) eqn:E; [done|]. by apply insert_subseteq.
Qed.

Lemma for_options_switches op rest vp u (m : gmap string values) :
  Forall (fun o => nargs (base o) = 0) rest ->
  exists vp' u' m' pre,
    for_options op rest vp u m = Return (vp', u') m'
    /\ m ⊆ m'
    /\ (forall k vs, m' !! k = Some vs ->
          m !! k = Some vs \/ vs = [mk_value value_type.Bool "true"])
    /\ vp = pre ++ vp'
    /\ Forall (fun t => exists o, o ∈ rest /\ t ∈ options o
                                  /\ is_Some (m' !! name (base o))) pre.
Proof.
  intros Hrest. revert vp u m.
  induction rest as [|o rest' IH]; intros vp u m; simpl.
  { exists vp, u, m, []. repeat split; auto. }
  apply Forall_cons in Hrest as [Ho Hrest]. specialize (IH Hrest).
  destruct vp as [|tok vp0].
  { exists [], u, m, []. repeat split; auto. }
  destruct (Z.eqb_spec (operator_eq o tok) 0) as [Hz|Hnz].
  - destruct (IH (tok :: vp0) u m) as (vp' & u' & m' & pre & Hr & Hsub & Hval & Hpre & Hall).
    exists vp', u', m', pre. split; [done|]. split; [done|]. split; [done|].
    split; [done|]. eapply Forall_impl; [exact Hall|].
    intros t (o' & Ho' & Ht & Hb). exists o'. split; [|done].
    by apply list_elem_of_further.
  - unfold read_option. rewrite Ho. simpl.
    set (m1 := map_insert (name (base o)) [mk_value value_type.Bool "true"] m).
    destruct (IH vp0 true m1) as (vp' & u' & m' & pre & Hr & Hsub & Hval & Hpre & Hall).
    exists vp', u', m', (tok :: pre). split; [done|].
    split; [etrans; [apply map_insert_subseteq|exact Hsub]|].
    split; [|split; [by rewrite Hpre|]].
    + intros k vs Hk. destruct (Hval k vs Hk) as [Hm1|?]; [|by right].
      unfold m1, map_insert in Hm1. destruct (m !! name (base o)) eqn:E; [by left|].
      destruct (decide (name (base o) = k)) as [<-|Hne].
      * rewrite lookup_insert_eq in Hm1. right. congruence.
      * rewrite lookup_insert_ne in Hm1 by done. by left.
    + constructor.
      * exists o. split; [apply list_elem_of_here|].
        split; [by apply directive_eq_spec|].
        destruct (map_insert_bound (name (base o)) [mk_value value_type.Bool "true"] m)
          as [vs Hvs].
        exists vs. eapply lookup_weaken; [exact Hvs|exact Hsub].
      * eapply Forall_impl; [exact Hall|].
        intros t (o' & Ho' & Ht & Hb). exists o'. split; [|done].
        by apply list_elem_of_further.
Qed.

Lemma filter_directives op (pre : list arg) :
  Forall (fun t => std_find op t = true) pre ->
  filter (fun t => std_find op t = false) pre = [].
Proof.
  induction 1 as [|t pre Ht _ IH]; [done|].
  rewrite filter_cons_False by congruence. exact IH.
Qed.

(** X13. When every registered option is a switch (size 0), phase 1
    cannot fail, hands to phase 2 exactly the tokens that are no
    directive, in order, and, for each token that is a directive, has
    bound the name of an option that carries it.  Started on an empty map,
    it binds such a name to the single boolean "true". *)
Theorem X13_switches_are_filtered_out
  (op : list optional_argument) (vp _remaining : list arg) (m : gmap string values) :
  Forall (fun o => nargs (base o) = 0) op ->
  exists m',
    optional_scan op vp _remaining m
    = Return (_remaining ++ filter (fun t => std_find op t = false) vp) m'
    /\ Forall (fun t => is_directive op t ->
                 exists o, o ∈ op /\ t ∈ options o
                           /\ is_Some (m' !! name (base o))) vp
    /\ (forall k vs, m' !! k = Some vs ->
          m !! k = Some vs \/ vs = [mk_value value_type.Bool "true"]).
Proof.
  intros Hop.
  cut (forall k vp _remaining (m : gmap string values), k = length vp ->
         exists m',
           optional_scan op vp _remaining m
           = Return (_remaining ++ filter (fun t => std_find op t = false) vp) m'
           /\ m ⊆ m'
           /\ Forall (fun t => is_directive op t ->
                        exists o, o ∈ op /\ t ∈ options o
                                  /\ is_Some (m' !! name (base o))) vp
           /\ (forall k vs, m' !! k = Some vs ->
                 m !! k = Some vs \/ vs = [mk_value value_type.Bool "true"])).
  { intros Hcut. destruct (Hcut (length vp) vp _remaining m eq_refl)
      as (m' & Hr & _ & Hall & Hval). by exists m'. }
  clear vp _remaining m.
  induction k as [k IH] using lt_wf_ind. intros vp _remaining m ->.
  destruct vp as [|tok vp0].
  { exists m. simp optional_scan. rewrite filter_nil, app_nil_r. repeat split; auto. }
  rewrite optional_scan_turn.
  destruct (for_options_switches op op (tok :: vp0) false m Hop)
    as (vp1 & u & m1 & pre & Hr & Hsub & Hval & Hpre & Hall).
  rewrite Hr.
  pose proof (for_options_cursor _ _ _ _ _ _ _ _ Hr) as (_ & _ & Hsame & Hlt).
  destruct u.
  - specialize (Hlt eq_refl eq_refl).
    destruct (IH (length vp1) Hlt vp1 _remaining m1 eq_refl)
      as (m' & Hscan & Hsub' & Hall' & Hval').
    exists m'. split; [|split; [by etrans|split]].
    + assert (optional_scan op vp1 _remaining m1
              = Return (_remaining ++ filter (fun t => std_find op t = false) vp1) m')
        as Hscan' by done.
      assert (filter (fun t => std_find op t = false) (tok :: vp0)
              = filter (fun t => std_find op t = false) vp1) as ->.
      { rewrite Hpre, filter_app.
        assert (filter (fun t => std_find op t = false) pre = []) as ->; [|done].
        apply filter_directives. eapply Forall_impl; [exact Hall|].
        intros t (o & Ho & Ht & _). apply std_find_spec. by exists o. }
      by destruct vp1.
    + rewrite Hpre. apply Forall_app. split; [|done].
      eapply Forall_impl; [exact Hall|].
      intros t (o & Ho & Ht & [vs Hb]) _. exists o. split; [done|]. split; [done|].
      exists vs. eapply lookup_weaken; [exact Hb|exact Hsub'].
    + intros k vs Hk. destruct (Hval' k vs Hk) as [Hk1|?]; [|by right]. by apply Hval.
  - specialize (Hsame eq_refl) as ->.
    pose proof (for_options_not_updated _ _ _ _ _ _ _ Hr) as Hf.
    assert ((length vp0 < length (tok :: vp0))%nat) as Hlt0 by (simpl; lia).
    destruct (IH (length vp0) Hlt0 vp0 (_remaining ++ [tok]) m1 eq_refl)
      as (m' & Hscan & Hsub' & Hall' & Hval').
    exists m'. split; [|split; [by etrans|split]].
    + rewrite Hscan, filter_cons_True by done. by rewrite <- app_assoc.
    + constructor; [|done]. intros Hd. apply std_find_spec in Hd. congruence.
    + intros k vs Hk. destruct (Hval' k vs Hk) as [Hk1|?]; [|by right]. by apply Hval.
Qed.

(** ** Where [parse] can go wrong *)

Lemma read_variable_defined op type0 vp v :
  read_variable op type0 vp v <> Undefined.
Proof.
  revert v. induction vp as [|tok vp0 IH]; intros v; simpl; [done|].
  destruct (std_find op tok); [done|].
  destruct (new_value type0 tok); [apply IH|done].
Qed.

Lemma for_options_defined op rest vp u m :
  Forall (fun o => nargs (base o) < 1) rest ->
  for_options op rest vp u m <> Abort.
Proof.
  intros Hrest. revert vp u m.
  induction rest as [|o rest' IH]; intros vp u m; simpl; [done|].
  apply Forall_cons in Hrest as [Ho Hrest]. specialize (IH Hrest).
  destruct vp as [|tok vp0]; [done|].
  destruct (operator_eq o tok =? 0); [apply IH|].
  unfold read_option.
  destruct (nargs (base o) =? 0); [apply IH|].
  destruct (nargs (base o) >=? 1) eqn:Hge.
  { rewrite Z.geb_leb in Hge. apply Z.leb_le in Hge. lia. }
  destruct (nargs (base o) =? variable_args); [|apply IH].
  destruct (read_variable op (type (base o)) vp0 []) as [[v1 vp1]|e|] eqn:E;
    [apply IH|done|].
  by apply read_variable_defined in E.
Qed.

(** X14. On a parser without an option of positive size, phase 1 has a
    defined behaviour on every list of tokens: it returns or throws. *)
Theorem X14_no_fixed_option_no_undefined_read
  (op : list optional_argument) (vp _remaining : list arg) (m : gmap string values) :
  Forall (fun o => nargs (base o) < 1) op ->
  optional_scan op vp _remaining m <> Abort.
Proof.
  intros Hop. remember (length vp) as k eqn:Hk. revert vp _remaining m Hk.
  induction k as [k IH] using lt_wf_ind. intros vp _remaining m ->.
  destruct vp as [|tok vp0]; [by simp optional_scan|].
  rewrite optional_scan_turn.
  destruct (for_options op op (tok :: vp0) false m) as [[vp1 u] m1|e m1|] eqn:E;
    [|done|by apply for_options_defined in E].
  apply for_options_cursor in E as (_ & _ & Hsame & Hlt). destruct u.
  - specialize (Hlt eq_refl eq_refl).
    destruct vp1; (eapply IH; [|done]); exact Hlt.
  - specialize (Hsame eq_refl) as ->. eapply (IH (length vp0)); [simpl; lia|done].
Qed.

Lemma positional_scan_defined pp vp m : positional_scan pp vp m <> Abort.
Proof.
  revert vp m. induction pp as [|ip pp' IH]; intros vp m; simpl; [done|].
  destruct (bind_positional ip vp) as [[v vp']|e]; [apply IH|done].
Qed.

(** ** The lines of a description *)

Lemma comment_loop_start b : comment_loop b 0 = comment_lines b.
Proof. by destruct b. Qed.

Lemma comment_loop_cons c rest n :
  n <> 0%nat ->
  comment_loop (String c rest) n
  = String c (if Nat.eqb (S n) 80 then nl +:+ comment_loop rest 0
              else comment_loop rest (S n)).
Proof. by destruct n. Qed.

Lemma comment_loop_first c rest :
  comment_loop (String c rest) 0 = "        " +:+ String c (comment_loop rest 9).
Proof. reflexivity. Qed.

Lemma comment_loop_full a b n :
  (8 <= n)%nat -> a <> "" -> (n + String.length a = 80)%nat ->
  comment_loop (a +:+ b) n = a +:+ nl +:+ comment_lines b.
Proof.
  revert n. induction a as [|c a IH]; intros n Hn Hne Hlen; [done|].
  change (String c a +:+ b) with (String c (a +:+ b)).
  change (String c a +:+ nl +:+ comment_lines b)
    with (String c (a +:+ nl +:+ comment_lines b)).
  rewrite comment_loop_cons by lia. f_equal.
  destruct (Nat.eqb_spec (S n) 80) as [Heq|Hneq].
  - assert (a = "") as -> by (destruct a; [done|simpl in Hlen; lia]).
    by rewrite comment_loop_start.
  - apply IH; [lia| |simpl in Hlen; lia]. intros ->. simpl in Hlen. lia.
Qed.

Lemma comment_loop_short a n :
  (8 <= n)%nat -> (n + String.length a < 80)%nat ->
  comment_loop a n = a +:+ nl.
Proof.
  revert n. induction a as [|c a IH]; intros n Hn Hlen.
  - by destruct n; [lia|].
  - change (String c a +:+ nl) with (String c (a +:+ nl)).
    rewrite comment_loop_cons by lia. f_equal. simpl in Hlen.
    destruct (Nat.eqb_spec (S n) 80) as [Heq|Hneq]; [lia|]. apply IH; lia.
Qed.

(** X16. [explain] prints a description in lines of 8 spaces followed by
    72 characters of the description and a line feed; the last line holds
    the characters that are left, if any; an empty description prints
    nothing. *)
Theorem X16_description_in_lines_of_72
  (a b : string) :
  comment_lines "" = ""
  /\ (String.length a = 72%nat ->
      comment_lines (a +:+ b) = "        " +:+ a +:+ nl +:+ comment_lines b)
  /\ ((0 < String.length a < 72)%nat ->
      comment_lines a = "        " +:+ a +:+ nl).
Proof.
  split; [done|]. split.
  - intros Hlen. destruct a as [|c a]; [discriminate|].
    change (comment_lines (String c a +:+ b))
      with (comment_loop (String c (a +:+ b)) 0).
    rewrite comment_loop_first. f_equal.
    change (String c a +:+ nl +:+ comment_lines b)
      with (String c (a +:+ nl +:+ comment_lines b)).
    f_equal. simpl in Hlen. apply comment_loop_full; [lia| |lia].
    intros ->. simpl in Hlen. lia.
  - intros Hlen. destruct a as [|c a]; [simpl in Hlen; lia|].
    change (comment_lines (String c a)) with (comment_loop (String c a) 0).
    rewrite comment_loop_first. f_equal.
    change (String c a +:+ nl) with (String c (a +:+ nl)).
    f_equal. simpl in Hlen. apply comment_loop_short; lia.
Qed.

(** ** What printing the help does *)

Lemma then_print_prints a b : prints (then_print a b) <-> prints a /\ prints b.
Proof.
  unfold prints. destruct a as [o1|o1|], b as [o2|o2|]; simpl; split.
  all: try (intros [? [=]]; fail).
  all: try (intros [[? [=]] [? [=]]]; fail).
  all: eauto.
Qed.

Lemma print_seq_prints l : prints (print_seq l) <-> Forall prints l.
Proof.
  induction l as [|x l IH]; simpl.
  - split; [constructor|]. intros _. by eexists.
  - rewrite then_print_prints, IH. split; [intros [? ?]; by constructor|].
    by intros [? ?]%Forall_cons.
Qed.

Lemma then_print_crashed a b :
  then_print a b = Crashed -> a = Crashed \/ b = Crashed.
Proof. destruct a, b; simpl; auto; discriminate. Qed.

Lemma print_seq_crashed l : print_seq l = Crashed -> Exists (fun x => x = Crashed) l.
Proof.
  induction l as [|x l IH]; simpl; [discriminate|].
  intros [->|Hl]%then_print_crashed; [by constructor|].
  apply Exists_cons_tl. by apply IH.
Qed.

Lemma then_print_crashes a b :
  a = Crashed \/ (prints a /\ b = Crashed) -> then_print a b = Crashed.
Proof. intros [->|[[out ->] ->]]; done. Qed.

Lemma show_option_prints o : options o <> [] -> prints (show_option o).
Proof.
  unfold show_option, prints. destruct (options o) as [|d0 [|d1 rest]]; [done| |];
    intros _; by eexists.
Qed.

Lemma show_option_crashed o : show_option o = Crashed <-> options o = [].
Proof.
  unfold show_option. by destruct (options o) as [|d0 [|d1 rest]].
Qed.

Lemma optional_format_prints o : options o <> [] -> prints (optional_format o).
Proof.
  intros Ho. unfold optional_format. apply print_seq_prints.
  each_printing; try (by eexists). by apply show_option_prints.
Qed.

Lemma optional_format_crashed o : options o = [] -> optional_format o = Crashed.
Proof.
  intros Ho. unfold optional_format. simpl.
  apply show_option_crashed in Ho. by rewrite Ho.
Qed.

Lemma print_seq_not_thrown l :
  Forall (fun x => prints x \/ x = Crashed) l ->
  prints (print_seq l) \/ print_seq l = Crashed.
Proof.
  induction 1 as [|x l Hx _ IH]; simpl; [left; by eexists|].
  destruct Hx as [[out ->]| ->]; [|by right].
  destruct IH as [[out' ->]| ->]; [left; by eexists|by right].
Qed.

Lemma optional_format_not_thrown o :
  prints (optional_format o) \/ optional_format o = Crashed.
Proof.
  destruct (options o) as [|d l] eqn:E.
  - right. by apply optional_format_crashed.
  - left. apply optional_format_prints. by rewrite E.
Qed.

Lemma formats_not_thrown (l : list optional_argument) :
  prints (print_seq (optional_format <$> l))
  \/ print_seq (optional_format <$> l) = Crashed.
Proof.
  apply print_seq_not_thrown. apply Forall_fmap, Forall_forall.
  intros o _. apply optional_format_not_thrown.
Qed.

Lemma format_not_thrown p : prints (format p) \/ format p = Crashed.
Proof.
  unfold format. apply print_seq_not_thrown.
  each_printing; try (left; by eexists); apply formats_not_thrown.
Qed.

Lemma format_prints p :
  Forall (fun o => options o <> []) (_optional_parsers p) -> prints (format p).
Proof.
  intros Hop. unfold format. apply print_seq_prints.
  assert (forall (P : optional_argument -> Prop) `{!forall o, Decision (P o)},
             prints (print_seq (optional_format <$> filter P (_optional_parsers p))))
    as Hfilter.
  { intros P ?. apply print_seq_prints, Forall_fmap, Forall_forall.
    intros o [_ Ho]%list_elem_of_filter. apply optional_format_prints.
    by eapply Forall_forall in Hop. }
  each_printing; try (by eexists); apply Hfilter.
Qed.

Lemma format_crashed p o :
  o ∈ _optional_parsers p -> options o = [] -> format p = Crashed.
Proof.
  intros Ho Hnone.
  destruct (format_not_thrown p) as [Hp|Hc]; [exfalso|done].
  unfold format in Hp. apply print_seq_prints in Hp.
  assert (forall (P : optional_argument -> Prop) `{!forall o, Decision (P o)},
             prints (print_seq (optional_format <$> filter P (_optional_parsers p))) ->
             P o -> False) as Hfilter.
  { intros P ? Hprints HP. apply print_seq_prints in Hprints.
    rewrite Forall_fmap, Forall_forall in Hprints.
    destruct (Hprints o) as [out Hout].
    - by apply list_elem_of_filter.
    - simpl in Hout. by rewrite optional_format_crashed in Hout. }
  apply Forall_cons in Hp as [_ Hp]. apply Forall_cons in Hp as [H0 Hp].
  apply Forall_cons in Hp as [Hpos Hp]. apply Forall_cons in Hp as [_ Hp].
  apply Forall_cons in Hp as [Hneg _].
  destruct (Z.lt_trichotomy (nargs (base o)) 0) as [Hlt|[Heq|Hgt]].
  - by apply (Hfilter _ _ Hneg).
  - by apply (Hfilter _ _ H0).
  - apply (Hfilter _ _ Hpos). lia.
Qed.

(** X17. The short help, which [parse] prints before it exits on an
    error, never throws: it is printed when every registered option has a
    directive, and indexes an empty vector of directives (undefined
    behaviour) when one has none. *)
Theorem X17_short_help_needs_directives (p : argparse) :
  match show_help true p with
  | Printed _ => Forall (fun o => options o <> []) (_optional_parsers p)
  | Threw _ => False
  | Crashed => Exists (fun o => options o = []) (_optional_parsers p)
  end.
Proof.
  destruct (decide (Forall (fun o => options o <> []) (_optional_parsers p)))
    as [Hall|Hnot].
  - assert (prints (show_help true p)) as [out ->]; [|done].
    unfold show_help. apply print_seq_prints.
    each_printing; try (by eexists). by apply format_prints.
  - apply not_Forall_Exists in Hnot; [|apply _].
    assert (Exists (fun o => options o = []) (_optional_parsers p)) as Hex.
    { eapply Exists_impl; [exact Hnot|]. simpl. intros o Ho.
      by destruct (options o); [|exfalso; apply Ho]. }
    assert (show_help true p = Crashed) as ->; [|done].
    apply Exists_exists in Hex as (o & Ho & Hnone).
    unfold show_help. simpl. rewrite (format_crashed p o Ho Hnone).
    by destruct (_description p).
Qed.

Lemma printing_cases x : prints x \/ (exists out, x = Threw out) \/ x = Crashed.
Proof. destruct x; [left|right; left|right; right]; by eauto || eexists. Qed.

Lemma positional_explain_prints a : prints (positional_explain a) <-> describable a.
Proof.
  unfold positional_explain, describable, prints.
  destruct (describe_type a) as [d|]; split.
  - by eexists.
  - intros _. by eexists.
  - by intros [? [=]].
  - by intros [? [=]].
Qed.

Lemma positional_explain_not_crashed a : positional_explain a <> Crashed.
Proof. unfold positional_explain. by destruct (describe_type a). Qed.

Lemma optional_explain_prints o :
  options o <> [] ->
  prints (optional_explain o) <-> (explains_type o -> describable (base o)).
Proof.
  intros Ho. unfold optional_explain. rewrite print_seq_prints.
  unfold explains_type, describable, variable_args.
  assert (forall x, prints (Printed x)) as Hp by (intros x; by eexists).
  assert (forall l, Forall prints (Printed "  " :: show_option o :: Threw "" :: l)
                    -> False) as Ht.
  { intros l HF. eapply (Forall_forall prints) with (x := Threw "") in HF.
    - by destruct HF as [? [=]].
    - do 2 apply list_elem_of_further. apply list_elem_of_here. }
  pose proof (show_option_prints o Ho) as Hs.
  destruct (Z.eqb_spec (nargs (base o)) 0) as [Hz|Hnz].
  { split; [intros _ ?; lia|]. intros _. by each_printing. }
  destruct (nargs (base o) >? 1) eqn:Hgt.
  { apply Z.gtb_lt in Hgt.
    destruct (describe_type (base o)) as [d|]; simpl.
    - split; [by intros _ _|]. intros _. by each_printing.
    - split; [by intros HF%Ht|].
      intros Hd. assert (is_Some (@None string)) as [? [=]]. apply Hd. lia. }
  assert (nargs (base o) <= 1) as Hle.
  { destruct (Z.gtb_spec (nargs (base o)) 1); [discriminate|lia]. }
  destruct (Z.eqb_spec (nargs (base o)) 1) as [H1|Hn1].
  { destruct (describe_type (base o)) as [d|]; simpl.
    - split; [by intros _ _|]. intros _. by each_printing.
    - split; [by intros HF%Ht|].
      intros Hd. assert (is_Some (@None string)) as [? [=]]. apply Hd. lia. }
  destruct (Z.eqb_spec (nargs (base o)) (-1)) as [Hv|Hnv].
  { destruct (describe_type (base o)) as [d|]; simpl.
    - split; [by intros _ _|]. intros _. by each_printing.
    - split; [by intros HF%Ht|].
      intros Hd. assert (is_Some (@None string)) as [? [=]]. apply Hd. by right. }
  split; [intros _ ?; lia|]. intros _. simpl. by each_printing.
Qed.

Lemma print_seq_defined l : Forall (fun x => x <> Crashed) l -> print_seq l <> Crashed.
Proof.
  intros Hl Hc. apply print_seq_crashed in Hc.
  apply Exists_exists in Hc as (x & Hx & ->).
  eapply Forall_forall in Hl; [|exact Hx]. done.
Qed.

Lemma then_print_defined a b : a <> Crashed -> b <> Crashed -> then_print a b <> Crashed.
Proof. intros Ha Hb [?|?]%then_print_crashed; done. Qed.

Lemma optional_explain_defined o : options o <> [] -> optional_explain o <> Crashed.
Proof.
  intros Ho. unfold optional_explain. apply print_seq_defined.
  pose proof (show_option_prints o Ho) as [out Hs].
  each_printing; try done.
  - by rewrite Hs.
  - destruct (nargs (base o) =? 0); [done|]. apply then_print_defined; [|done].
    destruct (nargs (base o) >? 1); [by destruct (describe_type (base o))|].
    destruct (nargs (base o) =? 1); [by destruct (describe_type (base o))|].
    destruct (nargs (base o) =? variable_args); [|done].
    by destruct (describe_type (base o)).
Qed.

Lemma explain_part_prints {A : Type} (f : A -> printing) (Q : A -> Prop)
  (hdr : string) (l : list A) :
  (forall x, x ∈ l -> prints (f x) <-> Q x) ->
  prints match l with
         | [] => Printed ""
         | x :: l' => then_print (Printed hdr) (print_seq (f <$> x :: l'))
         end
  <-> Forall Q l.
Proof.
  intros Hf. destruct l as [|x l]; [by split; [constructor|eexists]|].
  rewrite then_print_prints, print_seq_prints, Forall_fmap.
  split; [intros [_ Hall]|intros Hall; split; [by eexists|]].
  all: apply Forall_forall; intros y Hy.
  all: pose proof (proj1 (Forall_forall _ _) Hall y Hy) as Hx.
  all: by apply (Hf y Hy).
Qed.

Lemma explain_prints p :
  Forall (fun o => options o <> []) (_optional_parsers p) ->
  prints (explain p) <-> all_describable p.
Proof.
  intros Hop. unfold explain, all_describable. rewrite print_seq_prints.
  assert (forall a, a ∈ _positional_parsers p ->
                    prints (positional_explain a) <-> describable a) as Hpos.
  { intros a _. apply positional_explain_prints. }
  assert (forall o, o ∈ _optional_parsers p ->
                    prints (optional_explain o)
                    <-> (explains_type o -> describable (base o))) as Hopt.
  { intros o Ho. apply optional_explain_prints.
    by eapply Forall_forall in Hop. }
  split.
  - intros HF. apply Forall_cons in HF as [H1 HF]. apply Forall_cons in HF as [H2 _].
    split.
    + by apply (explain_part_prints _ _ _ _ Hpos) in H1.
    + by apply (explain_part_prints _ _ _ _ Hopt) in H2.
  - intros [H1 H2]. each_printing.
    + by apply (explain_part_prints _ _ _ _ Hpos).
    + by apply (explain_part_prints _ _ _ _ Hopt).
Qed.

Lemma explain_defined p :
  Forall (fun o => options o <> []) (_optional_parsers p) -> explain p <> Crashed.
Proof.
  intros Hop. unfold explain. apply print_seq_defined. each_printing.
  - destruct (_positional_parsers p) as [|ip pp]; [done|].
    apply then_print_defined; [done|]. apply print_seq_defined, Forall_fmap, Forall_forall.
    intros a _. apply positional_explain_not_crashed.
  - destruct (_optional_parsers p) as [|o op] eqn:E; [done|].
    apply then_print_defined; [done|]. apply print_seq_defined, Forall_fmap.
    eapply Forall_impl; [exact Hop|]. intros o'. apply optional_explain_defined.
Qed.

(** X18. The full help, which [parse] prints when help is asked for, is
    printed on a parser whose options all have a directive exactly when
    every type [explain] has to name is integer, float or string: the type
    of each positional argument, and the type of each option of positive
    size or of size [variable_args].  Otherwise it throws "wrong argument
    type." half way through. *)
Theorem X18_full_help_needs_named_types (p : argparse) :
  Forall (fun o => options o <> []) (_optional_parsers p) ->
  match show_help false p with
  | Printed _ => all_describable p
  | Threw _ => ~ all_describable p
  | Crashed => False
  end.
Proof.
  intros Hop.
  assert (prints (show_help false p) <-> all_describable p) as Hiff.
  { unfold show_help. rewrite print_seq_prints, <- explain_prints by done.
    pose proof (format_prints p Hop) as Hf.
    split.
    - intros HF. eapply (Forall_forall prints) with (x := explain p) in HF; [done|].
      do 3 apply list_elem_of_further. apply list_elem_of_here.
    - intros Hx. each_printing; try done; by eexists. }
  assert (show_help false p <> Crashed) as Hdef.
  { unfold show_help. apply print_seq_defined. each_printing; try done.
    - pose proof (format_prints p Hop) as [out ->]. done.
    - by apply explain_defined. }
  destruct (show_help false p) as [out|out|]; [| |done].
  - apply Hiff. by eexists.
  - intros Hd. apply Hiff in Hd as [? [=]].
Qed.

(** ** [parse] with its printing *)

Lemma show_help_defined simple p :
  Forall (fun o => options o <> []) (_optional_parsers p) ->
  show_help simple p <> Crashed.
Proof.
  intros Hop. unfold show_help. apply print_seq_defined. each_printing; try done.
  - pose proof (format_prints p Hop) as [out ->]. done.
  - destruct simple; [done|]. by apply explain_defined.
Qed.

Lemma show_help_short_not_thrown p out : show_help true p <> Threw out.
Proof.
  unfold show_help. destruct (format_not_thrown p) as [[o ->]| ->]; simpl.
  - done.
  - done.
Qed.

Lemma show_help_frame simple b m p :
  show_help simple (set_completed b (set_map m p)) = show_help simple p.
Proof. reflexivity. Qed.

Lemma help_and_exit_cases simple tail status p :
  (exists out, show_help simple p = Printed out
               /\ help_and_exit simple tail status p = IoExited status (out +:+ tail))
  \/ (exists out, show_help simple p = Threw out
                  /\ help_and_exit simple tail status p = IoThrownWrongType out p)
  \/ (show_help simple p = Crashed
      /\ help_and_exit simple tail status p = IoUnspecified).
Proof.
  unfold help_and_exit. destruct (show_help simple p) as [out|out|]; eauto.
Qed.

(** ** When [_completed] is set *)






(** X20. What escapes from [parse] besides the error of its scan.  On a
    parser whose options all have a directive and on which some type that
    the full help has to name has no name, when "help" is bound to true
    after the scan, [parse] throws "wrong argument type." to its caller
    where it was to print the help and exit: after a scan that went
    through, under [show_help_and_exit], and after a scan that failed,
    under [help_on_error].  [_completed] is set when it does, so the parser
    it leaves answers queries, also when its scan has failed. *)
Theorem X20_help_can_throw_out_of_parse
  (h s : bool) (p : argparse) (m1 : gmap string values) :
  Forall (fun o => options o <> []) (_optional_parsers p) ->
  ~ all_describable p ->
  get_or "help" false (set_completed true (set_map m1 p)) = Returns true ->
  (s = true /\ exists r, try_block p = Return r m1)
  \/ (h = true /\ exists e, try_block p = Raise e m1) ->
  exists err,
    show_help false p = Threw err
    /\ parse_io h s p = IoThrownWrongType err (set_completed true (set_map m1 p))
    /\ parse h s p = ThrownWrongType (set_completed true (set_map m1 p))
    /\ get (T := bool) "help" (set_completed true (set_map m1 p)) = Returns true.
Proof.
  intros Hop Hnd Hhelp Hscan.
  assert (exists err, show_help false p = Threw err) as [err Herr].
  { destruct (printing_cases (show_help false p)) as [[out Hout]|[Hthrew|Hcr]].
    - exfalso. apply Hnd. apply (explain_prints p Hop).
      revert Hout. unfold show_help. intros Hout.
      assert (prints (print_seq
                [Printed (match _description p with
                          | EmptyString => ""
                          | desc => c_str desc +:+ nl +:+ nl
                          end);
                 Printed ("usage:" +:+ nl +:+ "  "); format p; explain p])) as Hp.
      { by exists out. }
      apply print_seq_prints in Hp.
      apply Forall_cons in Hp as [_ Hp]. apply Forall_cons in Hp as [_ Hp].
      apply Forall_cons in Hp as [_ Hp]. by apply Forall_cons in Hp as [Hp _].
    - exact Hthrew.
    - by apply show_help_defined in Hcr. }
  exists err. split; [done|].
  assert (parse_io h s p = IoThrownWrongType err (set_completed true (set_map m1 p)))
    as Hio.
  { unfold parse_io.
    destruct Hscan as [[-> [r ->]]|[-> [e ->]]]; simpl; simpl in Hhelp; rewrite Hhelp.
    all: unfold help_and_exit; rewrite show_help_frame; by rewrite Herr. }
  split; [done|]. split; [unfold parse; by rewrite Hio|].
  revert Hhelp. unfold get_or.
  by destruct (get "help" (set_completed true (set_map m1 p))) as [[|]|e|].
Qed.

(** X11. What [parse] throws from its scan is a conversion error of a
    token ("value is not convertible to ...", "argument type is null.") or
    "insufficient number of arguments"; it is thrown only when
    [help_on_error] is off, with [_completed] as it was; and phase 1
    contributes conversion errors alone. *)
Theorem X11_parse_throws_the_error_of_its_scan
  (h s : bool) (p p' : argparse) (e : runtime_error) :
  parse_io h s p = IoThrown e p' ->
  h = false
  /\ (kind_of e = ConversionError \/ e = insufficient)
  /\ try_block p = Raise e (_map p')
  /\ _completed p' = _completed p
  /\ forall m1,
       optional_scan (_optional_parsers p) (_arguments p) [] (_map p) = Raise e m1 ->
       kind_of e = ConversionError.
Proof.
  intros Hp.
  assert (parse h s p = Thrown e p') as Hp'.
  { unfold parse. by rewrite Hp. }
  apply parse_thrown in Hp' as (-> & m1 & Htry & ->).
  split; [done|]. split; [|split; [done|split; [done|]]].
  - unfold try_block in Htry.
    destruct (optional_scan _ _ _ _) as [r m0|e0 m0|] eqn:E; [| |discriminate].
    + by eapply positional_scan_raise.
    + injection Htry as <- _. left. by eapply optional_scan_raise.
  - intros m2. apply optional_scan_raise.
Qed.

(** X15. On a parser a program can build and whose options all have a
    directive, the one undefined behaviour of [parse], printing included,
    is the read of phase 1 past the last token: the look-up of "help" that
    follows the scan always finds a non-empty list, and the help can be
    printed or throws; so when phase 1 ends, [parse] returns, throws or
    exits. *)
Theorem X15_parse_is_undefined_in_phase_1_only
  (with_help h s : bool) (p : argparse) :
  reachable with_help p ->
  Forall (fun o => options o <> []) (_optional_parsers p) ->
  parse_io h s p = IoUnspecified ->
  optional_scan (_optional_parsers p) (_arguments p) [] (_map p) = Abort.
Proof.
  intros Hr Hdirs. pose proof (reachable_bindings_justified _ _ Hr) as Hj.
  pose proof (reachable_help_inv _ _ Hr) as [Hpp (user & Hop & Huser)].
  assert (forall m' (q : argparse),
             final_map (try_block p) = Some m' ->
             _map q = m' -> get_or "help" false q <> Undefined) as Hhelp.
  { intros m' q Hm' Hq. apply (try_block_justified p m' Hj) in Hm'.
    unfold get_or, get. destruct (_completed q); simpl; [|done].
    rewrite Hq. destruct (m' !! "help") as [vs|] eqn:Hk; [|done].
    destruct (Hm' "help" vs Hk) as [_ [(ip & Hip & Hname & _)|(o & Ho & Hname & Hsw & _)]].
    - eapply Forall_forall in Hpp; [|exact Hip]. done.
    - assert (o = help_option) as ->.
      { rewrite Hop in Ho. apply elem_of_app in Ho as [Ho|Ho].
        - destruct with_help; [by apply list_elem_of_singleton in Ho|].
          by apply elem_of_nil in Ho.
        - eapply Forall_forall in Huser; [|exact Ho]. done. }
      rewrite (Hsw eq_refl). done. }
  assert (forall simple tail status b m,
             help_and_exit simple tail status (set_completed b (set_map m p))
             <> IoUnspecified) as Hexit.
  { intros simple tail status b m. unfold help_and_exit. rewrite show_help_frame.
    pose proof (show_help_defined simple p Hdirs).
    by destruct (show_help simple p). }
  unfold parse_io, try_block in *.
  destruct (optional_scan _ _ _ _) as [r m0|e m0|] eqn:E; [| |done].
  - destruct (positional_scan _ r m0) as [l m1|e m1|] eqn:E2;
      [| |by apply positional_scan_defined in E2].
    + destruct s; [|discriminate].
      destruct (get_or "help" false _) as [[|]|e|] eqn:G; try discriminate.
      * intros Hx. by apply Hexit in Hx.
      * by eapply Hhelp in G.
    + destruct h; [|discriminate].
      destruct (get_or "help" false _) as [[|]|e'|] eqn:G; try discriminate.
      * intros Hx. by apply Hexit in Hx.
      * intros Hx. by apply Hexit in Hx.
      * by eapply Hhelp in G.
  - destruct h; [|discriminate].
    destruct (get_or "help" false _) as [[|]|e'|] eqn:G; try discriminate.
    + intros Hx. by apply Hexit in Hx.
    + intros Hx. by apply Hexit in Hx.
    + by eapply Hhelp in G.
Qed.

(** ** Reading back a printed integer *)

Lemma digit_value_char (d : N) :
  (d < 10)%N -> digit_value (pretty_N_char d) = Some (Z.of_N d).
Proof.
  intros Hd.
  assert (d = 0 \/ d = 1 \/ d = 2 \/ d = 3 \/ d = 4 \/ d = 5 \/ d = 6 \/ d = 7
          \/ d = 8 \/ d = 9)%N as Hcases by lia.
  repeat (destruct Hcases as [->|Hcases]; [reflexivity|]). by subst.
Qed.

Lemma digits_value_pretty (x : N) :
  exists k : Z,
    0 <= k
    /\ forall s acc,
         digits_value (pretty_N_go x s) acc = digits_value s (acc * 10 ^ k + Z.of_N x).
Proof.
  induction (N.lt_wf_0 x) as [x _ IH].
  destruct (decide (x = 0)%N) as [->|Hx].
  { exists 0. split; [done|]. intros s acc. rewrite pretty_N_go_0. f_equal. lia. }
  destruct (IH (x `div` 10)%N) as (k & Hk & Hgo).
  { apply N.div_lt; lia. }
  exists (k + 1). split; [lia|]. intros s acc.
  rewrite pretty_N_go_step by lia. rewrite Hgo. simpl.
  rewrite digit_value_char by (apply N.mod_lt; lia).
  f_equal. rewrite Z.pow_add_r by lia.
  rewrite (N.div_mod x 10) at 3 by lia. rewrite N2Z.inj_add, N2Z.inj_mul. lia.
Qed.

Lemma pretty_N_go_head (x : N) s :
  (0 < x)%N ->
  exists c rest, pretty_N_go x s = String c rest
                 /\ is_Some (digit_value c) /\ isspace c = false
                 /\ c <> "-"%char /\ c <> "+"%char.
Proof.
  revert s. induction (N.lt_wf_0 x) as [x _ IH]. intros s Hx.
  rewrite pretty_N_go_step by done.
  destruct (decide (x `div` 10 = 0)%N) as [Hz|Hnz].
  - rewrite Hz, pretty_N_go_0. eexists _, _. split; [done|].
    assert (x `mod` 10 < 10)%N as Hd by (apply N.mod_lt; lia).
    revert Hd. generalize (x `mod` 10)%N. intros d Hd.
    assert (d = 0 \/ d = 1 \/ d = 2 \/ d = 3 \/ d = 4 \/ d = 5 \/ d = 6 \/ d = 7
            \/ d = 8 \/ d = 9)%N as Hcases by lia.
    repeat (destruct Hcases as [->|Hcases]; [by repeat split; eauto|]).
    rewrite Hcases. by repeat split; eauto.
  - apply IH; [apply N.div_lt; lia|by apply N.neq_0_lt_0].
Qed.

(** X21. An integer printed in decimal, as "%ld" prints it, reads back as
    itself: on the text of an integer [n] of the range of [long],
    [std::stol] returns [n], so constructing a value of type Integer from
    it succeeds and the value reads as [n]. *)
Theorem X21_printed_integer_reads_back (n : Z) :
  LONG_MIN <= n <= LONG_MAX ->
  stol (print_d n) = inr n
  /\ new_value value_type.Integer (print_d n)
     = Ok (mk_value value_type.Integer (print_d n))
  /\ value_get (T := Z) (mk_value value_type.Integer (print_d n)) = Ok n.
Proof.
  intros Hn.
  assert (stol (print_d n) = inr n) as Hstol.
  { unfold print_d, pretty, pretty_Z. destruct n as [|x|x].
    - reflexivity.
    - unfold pretty, pretty_positive, pretty, pretty_N.
      destruct (decide (N.pos x = 0)%N) as [?|_]; [done|].
      destruct (pretty_N_go_head (N.pos x) "") as (c & rest & Hs & Hdig & Hsp & Hm & Hp);
        [done|].
      destruct (digits_value_pretty (N.pos x)) as (k & Hk & Hgo).
      specialize (Hgo "" 0). unfold stol. rewrite Hs in *. simpl skip_spaces.
      rewrite Hsp.
      destruct (Ascii.eqb_spec c "-"%char); [done|].
      destruct (Ascii.eqb_spec c "+"%char); [done|].
      unfold starts_with_digit. rewrite bool_decide_eq_true_2 by done.
      rewrite Hgo. simpl digits_value.
      replace (0 * 10 ^ k + Z.pos x) with (Z.pos x) by lia.
      destruct Hn as [Hlo Hhi].
      apply Z.leb_le in Hlo, Hhi. by rewrite Hlo, Hhi.
    - unfold pretty, pretty_positive, pretty, pretty_N.
      destruct (decide (N.pos x = 0)%N) as [?|_]; [done|].
      destruct (pretty_N_go_head (N.pos x) "") as (c & rest & Hs & Hdig & Hsp & Hm & Hp);
        [done|].
      destruct (digits_value_pretty (N.pos x)) as (k & Hk & Hgo).
      specialize (Hgo "" 0). unfold stol.
      change ("-" +:+ pretty_N_go (N.pos x) "")
        with (String "-"%char (pretty_N_go (N.pos x) "")).
      simpl skip_spaces. rewrite Hs in *. unfold starts_with_digit.
      cbv beta iota. rewrite Ascii.eqb_refl. cbv beta iota.
      rewrite bool_decide_eq_true_2 by done.
      rewrite Hgo. simpl digits_value.
      replace (- (0 * 10 ^ k + Z.pos x)) with (Z.neg x) by lia.
      destruct Hn as [Hlo Hhi].
      apply Z.leb_le in Hlo, Hhi. by rewrite Hlo, Hhi. }
  split; [done|].
  unfold new_value, assert_argument_type, value_get, get_int64_t, convert_integer.
  simpl. by rewrite Hstol.
Qed.

(** ** Options of a fixed size *)

Lemma read_fixed_enough type0 n vp v :
  (n <= length vp)%nat ->
  Forall (fun t => new_value type0 t = Ok (mk_value type0 t)) (take n vp) ->
  read_fixed type0 n vp v = Returns (v ++ (mk_value type0 <$> take n vp), drop n vp).
Proof.
  revert vp v. induction n as [|n IH]; intros vp v Hlen Hconv; simpl.
  - by rewrite app_nil_r.
  - destruct vp as [|tok vp0]; [simpl in Hlen; lia|]. simpl in *.
    apply Forall_cons in Hconv as [-> Hconv].
    rewrite IH by (done || lia). by rewrite <- app_assoc.
Qed.

(** X22. When the cursor is on a directive of an option of positive size
    [n], the option takes the [n] tokens that follow, whatever they are,
    directives of other options included, makes each a value of its type
    and inserts the list under its name; the [for] loop goes on after
    them.  When fewer than [n] tokens follow, and they convert, the read
    goes past the last token: the behaviour is undefined. *)
Theorem X22_fixed_option_takes_its_size
  (op rest : list optional_argument) (o : optional_argument) (tok : arg)
  (vp : list arg) (u : bool) (m : gmap string values) :
  tok ∈ options o ->
  1 <= nargs (base o) ->
  let n := Z.to_nat (nargs (base o)) in
  let type0 := type (base o) in
  ((n <= length vp)%nat ->
   Forall (fun t => new_value type0 t = Ok (mk_value type0 t)) (take n vp) ->
   for_options op (o :: rest) (tok :: vp) u m
   = for_options op rest (drop n vp) true
       (map_insert (name (base o)) (mk_value type0 <$> take n vp) m))
  /\ ((length vp < n)%nat ->
      Forall (fun t => new_value type0 t = Ok (mk_value type0 t)) vp ->
      for_options op (o :: rest) (tok :: vp) u m = Abort).
Proof.
  intros Htok Hsize n type0. simpl.
  apply directive_eq_spec in Htok. unfold operator_eq.
  destruct (Z.eqb_spec (directive_eq (options o) tok) 0) as [Hz|_]; [done|].
  unfold read_option.
  destruct (Z.eqb_spec (nargs (base o)) 0) as [?|_]; [lia|].
  assert ((nargs (base o) >=? 1) = true) as ->.
  { rewrite Z.geb_leb. by apply Z.leb_le. }
  split.
  - intros Hlen Hconv. by rewrite read_fixed_enough.
  - intros Hlen Hconv. by rewrite read_fixed_short.
Qed.

(** ** The help option *)

Lemma for_options_grows op rest vp u (m m' : gmap string values) :
  final_map (for_options op rest vp u m) = Some m' -> m ⊆ m'.
Proof.
  rewrite <- (right_id_L ∅ (∪) m) at 1. rewrite for_options_shift.
  destruct (for_options op rest vp u ∅) as [a f|e f|]; simpl; try discriminate.
  all: intros [= <-]; apply map_union_subseteq_l.
Qed.

Lemma optional_scan_grows op vp _remaining (m m' : gmap string values) :
  final_map (optional_scan op vp _remaining m) = Some m' -> m ⊆ m'.
Proof.
  rewrite <- (right_id_L ∅ (∪) m) at 1. rewrite optional_scan_shift.
  destruct (optional_scan op vp _remaining ∅) as [a f|e f|]; simpl; try discriminate.
  all: intros [= <-]; apply map_union_subseteq_l.
Qed.

Lemma positional_scan_grows pp vp (m m' : gmap string values) :
  final_map (positional_scan pp vp m) = Some m' -> m ⊆ m'.
Proof.
  rewrite <- (right_id_L ∅ (∪) m) at 1. rewrite positional_scan_shift.
  destruct (positional_scan pp vp ∅) as [a f|e f|]; simpl; try discriminate.
  all: intros [= <-]; apply map_union_subseteq_l.
Qed.

Lemma try_block_grows p (m' : gmap string values) :
  final_map (try_block p) = Some m' -> _map p ⊆ m'.
Proof.
  unfold try_block.
  destruct (optional_scan _ _ _ _) as [r m1|e m1|] eqn:E; simpl; [| |discriminate].
  - intros Hm'. apply positional_scan_grows in Hm'.
    etrans; [|exact Hm']. eapply optional_scan_grows. by rewrite E.
  - intros [= <-]. eapply optional_scan_grows. by rewrite E.
Qed.

Lemma help_binding with_help p m' vs :
  reachable with_help p ->
  final_map (try_block p) = Some m' ->
  m' !! "help" = Some vs ->
  with_help = true /\ vs = [mk_value value_type.Bool "true"].
Proof.
  intros Hr Hm' Hk. pose proof (reachable_bindings_justified _ _ Hr) as Hj.
  pose proof (reachable_help_inv _ _ Hr) as [Hpp (user & Hop & Huser)].
  apply (try_block_justified p m' Hj) in Hm'.
  destruct (Hm' "help" vs Hk) as [_ [(ip & Hip & Hname & _)|(o & Ho & Hname & Hsw & _)]].
  - eapply Forall_forall in Hpp; [|exact Hip]. done.
  - rewrite Hop in Ho. apply elem_of_app in Ho as [Ho|Ho].
    + destruct with_help; [|by apply elem_of_nil in Ho].
      apply list_elem_of_singleton in Ho as ->. split; [done|]. by apply Hsw.
    + eapply Forall_forall in Huser; [|exact Ho]. done.
Qed.

(** X23. A parser constructed without the help option never prints the
    full help, never exits with success and never throws "wrong argument
    type.": "help" is not bound, so what [parse] does is fixed by its scan.
    When the scan goes through, [parse] returns, whatever its flags.  When
    the scan throws, [parse] throws the same error if [help_on_error] is
    off; if it is on, [parse] prints the short help and the error and exits
    with failure, or indexes an empty vector of directives while printing.
    When the scan reads past the last token, the behaviour is undefined. *)
Theorem X23_without_help_option_no_help
  (h s : bool) (p : argparse) :
  reachable false p ->
  match try_block p with
  | Return r m1 => parse_io h s p = IoReturned (set_completed true (set_map m1 p))
  | Raise e m1 =>
      if h then
        match show_help true p with
        | Printed out =>
            parse_io h s p
            = IoExited EXIT_FAILURE (out +:+ nl +:+ "error: " +:+ what e +:+ nl)
        | Threw _ => False
        | Crashed => parse_io h s p = IoUnspecified
        end
      else parse_io h s p = IoThrown e (set_map m1 p)
  | Abort => parse_io h s p = IoUnspecified
  end.
Proof.
  intros Hr.
  assert (forall m' (q : argparse),
             final_map (try_block p) = Some m' -> _map q = m' ->
             get_or "help" false q = Returns false) as Hhelp.
  { intros m' q Hm' Hq. unfold get_or, get. rewrite Hq.
    destruct (m' !! "help") as [vs|] eqn:Hk.
    - by destruct (help_binding false p m' vs Hr Hm' Hk) as [[=] _].
    - by destruct (_completed q). }
  unfold parse_io. destruct (try_block p) as [r m1|e m1|] eqn:E; [| |done].
  - destruct s; [|done]. by rewrite (Hhelp m1).
  - destruct h; [|done]. rewrite (Hhelp m1) by done.
    unfold help_and_exit. rewrite show_help_frame.
    destruct (show_help true p) as [out|out|] eqn:S; [done| |done].
    by apply show_help_short_not_thrown in S.
Qed.

Lemma append_empty (s : string) : s +:+ "" = s.
Proof.
  induction s as [|c s IH]; [done|].
  change (String c s +:+ "") with (String c (s +:+ "")). by rewrite IH.
Qed.

Lemma optional_scan_turn_grows op tok vp0 _remaining (m m' : gmap string values) :
  final_map (optional_scan op (tok :: vp0) _remaining m) = Some m' ->
  exists m2, final_map (for_options op op (tok :: vp0) false m) = Some m2 /\ m2 ⊆ m'.
Proof.
  rewrite optional_scan_turn.
  destruct (for_options op op (tok :: vp0) false m) as [[vp1 u] m2|e m2|];
    [| |discriminate].
  - intros Hm'. exists m2. split; [done|].
    destruct u.
    + assert (final_map (optional_scan op vp1 _remaining m2) = Some m') as Hx.
      { by destruct vp1. }
      by apply optional_scan_grows in Hx.
    + destruct vp1 as [|t vp2]; [discriminate|]. by apply optional_scan_grows in Hm'.
  - intros [= <-]. by exists m2.
Qed.

(** X24. On a parser constructed with the help option, when the first
    token is "-h" or "--help", [parse] with its default flags neither
    returns, nor throws the error of its scan, nor exits with failure.  If
    phase 1 reads past the last token the behaviour is undefined and no
    help is printed.  Otherwise "help" is bound to true, whether the scan
    goes through or throws, and [parse] goes on to print the full help: it
    exits with success when the help is printed, throws "wrong argument
    type." when a type has no name, and indexes an empty vector when an
    option has no directive. *)
Theorem X24_help_first_wins
  (p : argparse) (tok : arg) (rest : list arg) :
  reachable true p ->
  _arguments p = tok :: rest ->
  tok = "-h" \/ tok = "--help" ->
  match try_block p with
  | Return _ m1 | Raise _ m1 =>
      m1 !! "help" = Some [mk_value value_type.Bool "true"]
      /\ match show_help false p with
         | Printed out => parse_io true true p = IoExited EXIT_SUCCESS out
         | Threw out =>
             parse_io true true p
             = IoThrownWrongType out (set_completed true (set_map m1 p))
         | Crashed => parse_io true true p = IoUnspecified
         end
  | Abort => parse_io true true p = IoUnspecified
  end.
Proof.
  intros Hr Hargs Htok.
  pose proof (reachable_help_inv _ _ Hr) as [_ (user & Hop & _)].
  assert (forall m', final_map (try_block p) = Some m' ->
                     m' !! "help" = Some [mk_value value_type.Bool "true"]) as Hbound.
  { intros m' Hm'.
    assert (is_Some (m' !! "help")) as [vs Hvs].
    { assert (exists m2,
                 final_map (for_options (_optional_parsers p) (_optional_parsers p)
                              (tok :: rest) false (_map p)) = Some m2
                 /\ m2 ⊆ m') as (m2 & Hm2 & Hsub).
      { revert Hm'. unfold try_block. rewrite Hargs.
        destruct (optional_scan _ (tok :: rest) [] (_map p)) as [r m1|e m1|] eqn:E;
          simpl; [| |discriminate].
        - intros Hm'. apply positional_scan_grows in Hm'.
          destruct (optional_scan_turn_grows _ _ _ _ _ m1 ltac:(by rewrite E))
            as (m2 & Hm2 & Hsub).
          exists m2. split; [done|]. by etrans.
        - intros [= <-]. eapply optional_scan_turn_grows. by rewrite E. }
      revert Hm2. rewrite Hop. simpl.
      assert ((operator_eq help_option tok =? 0) = false) as ->.
      { by destruct Htok as [-> | ->]. }
      unfold read_option. simpl. intros Hm2. apply for_options_grows in Hm2.
      destruct (map_insert_bound "help" [mk_value value_type.Bool "true"] (_map p))
        as [v1 Hv1].
      exists v1. eapply lookup_weaken; [exact Hv1|]. by etrans. }
    by destruct (help_binding true p m' vs Hr Hm' Hvs) as [_ ->]. }
  assert (forall m' b, final_map (try_block p) = Some m' ->
            get_or "help" false (set_completed true (set_map m' b)) = Returns true)
    as Hhelp.
  { intros m' b Hm'. unfold get_or, get. simpl. by rewrite (Hbound m' Hm'). }
  unfold parse_io. destruct (try_block p) as [r m1|e m1|] eqn:E; [| |done].
  - split; [by apply Hbound|].
    rewrite (Hhelp m1) by done. unfold help_and_exit. rewrite show_help_frame.
    destruct (show_help false p); [|done|done]. by rewrite append_empty.
  - split; [by apply Hbound|].
    rewrite (Hhelp m1) by done. unfold help_and_exit. rewrite show_help_frame.
    destruct (show_help false p); [|done|done]. by rewrite append_empty.
Qed.

End Argparse.

Arguments Returns {A} a.
Arguments Throws {A} e.
Arguments Undefined {A}.
Arguments Return {A} a m.
Arguments Raise {A} e m.
Arguments Abort {A}.

(** ** Runs of the model *)

Example strtod_converts_decimal : strtod_converts " -1.5e3" = true.
Proof. reflexivity. Qed.

Example strtod_converts_word : strtod_converts "fast" = false.
Proof. reflexivity. Qed.

Lemma name_nums_parser_reachable : reachable strtod_converts true name_nums_parser.
Proof.
  pose (p0 := new_argparse "prog" ["alice"; "1"; "2"; "3"] "" true).
  pose (p1 := mk_argparse "" false false "prog" ∅ ["alice"; "1"; "2"; "3"]
                [new_positional_argument "name" value_type.String 1 ""]
                [help_option]).
  apply (reach_add_argument _ _ "nums" value_type.Integer variable_args "" p1);
    [|reflexivity].
  apply (reach_add_argument _ _ "name" value_type.String 1 "" p0); [|reflexivity].
  apply reach_new.
Qed.

Example name_nums_parse :
  parse strtod_converts false false name_nums_parser = Returned name_nums_parsed.
Proof. vm_compute. reflexivity. Qed.

Lemma short_parser_reachable : reachable strtod_converts false short_parser.
Proof.
  pose (p0 := new_argparse "prog" ["x"] "" false).
  pose (p1 := mk_argparse "" false false "prog" ∅ ["x"]
                [new_positional_argument "a" value_type.String 1 ""] []).
  apply (reach_add_argument _ _ "b" value_type.Integer variable_args "" p1);
    [|reflexivity].
  apply (reach_add_argument _ _ "a" value_type.String 1 "" p0); [|reflexivity].
  apply reach_new.
Qed.

Example short_parser_throws :
  parse strtod_converts false false short_parser
  = Thrown insufficient (set_map short_map short_parser).
Proof. vm_compute. reflexivity. Qed.

Lemma not_a_directive op tok : std_find op tok = false -> ~ is_directive op tok.
Proof. intros Hf Hd. apply std_find_spec in Hd. congruence. Qed.

Lemma C2_witness :
  (exists e, add_argument "b" value_type.Integer 2 "" name_nums_parser = Throw e)
  /\ exists p1,
       add_option1 "-n" "name" value_type.Integer 2 "" name_nums_parser = Ok p1
       /\ _optional_parsers p1
          = [help_option; new_optional_argument1 "-n" "name" value_type.Integer 2 ""].
Proof.
  pose proof (C2_registration_refuses_help_and_varargs strtod_converts true
                name_nums_parser "b"
                value_type.Integer 2 "" "-b" ["-b"] name_nums_parser_reachable)
    as (Harg & _).
  pose proof (C2_registration_refuses_help_and_varargs strtod_converts true
                name_nums_parser "name"
                value_type.Integer 2 "" "-n" ["-n"] name_nums_parser_reachable)
    as (_ & _ & _ & _ & _ & Hopt).
  split.
  - apply Harg. right. exists (new_positional_argument "nums" value_type.Integer
                                 variable_args "").
    split; [|reflexivity]. apply list_elem_of_further, list_elem_of_here.
  - destruct Hopt as (p1 & p2 & H1 & Hl & _); [discriminate|].
    exists p1. split; [exact H1|exact Hl].
Defined.

(** The claim C2 fails on the code: the name "name" is registered, and
    both [add_argument] and [add_option] take it again. *)
Lemma C2_counterexample :
  let p := mk_argparse "" false false "prog" ∅ []
             [new_positional_argument "name" value_type.String 1 ""] [] in
  add_argument "name" value_type.String 1 "" (new_argparse "prog" [] "" false) = Ok p
  /\ registered "name" p
  /\ add_argument "name" value_type.Integer 2 "" p
     = Ok (mk_argparse "" false false "prog" ∅ []
             [new_positional_argument "name" value_type.String 1 "";
              new_positional_argument "name" value_type.Integer 2 ""] [])
  /\ add_option ["-n"; "--name"] "name" value_type.Bool 0 "" p
     = Ok (mk_argparse "" false false "prog" ∅ []
             [new_positional_argument "name" value_type.String 1 ""]
             [new_optional_argument ["-n"; "--name"] "name" value_type.Bool 0 ""]).
Proof.
  simpl. split; [reflexivity|]. split; [|split; reflexivity].
  left. eexists. split; [apply list_elem_of_here|reflexivity].
Qed.

Lemma C3_witness :
  parse strtod_converts false false name_nums_parser = Returned name_nums_parsed
  /\ (exists r m,
        try_block strtod_converts (set_map ∅ name_nums_parser) = Return r m
        /\ _map name_nums_parsed = _map name_nums_parser ∪ m)
  /\ (forall k v, _map name_nums_parser !! k = Some v ->
                  _map name_nums_parsed !! k = Some v).
Proof.
  split; [vm_compute; reflexivity|].
  destruct (C3_parse_extends_the_map strtod_converts false false
              name_nums_parser name_nums_parsed) as (Hunion & Hkept & _).
  - vm_compute. reflexivity.
  - split; [exact Hunion|exact Hkept].
Defined.

(** The claim C3 fails on the code: [stale_parser] and [unparsed_parser]
    have the same arguments and tokens, [parse] returns on both, and the
    maps differ: on [stale_parser] the name [a] keeps the value "1" of the
    earlier [parse], where the tokens now give it "2". *)
Lemma C3_counterexample :
  (exists p1 p2,
      add_argument "a" value_type.String 1 "" (new_argparse "prog" ["1"; "2"] "" false)
      = Ok p1
      /\ parse strtod_converts false false p1 = Returned p2
      /\ add_option1 "1" "one" value_type.Bool 0 "" p2 = Ok stale_parser
      /\ add_option1 "1" "one" value_type.Bool 0 "" p1 = Ok unparsed_parser)
  /\ _arguments stale_parser = _arguments unparsed_parser
  /\ _positional_parsers stale_parser = _positional_parsers unparsed_parser
  /\ _optional_parsers stale_parser = _optional_parsers unparsed_parser
  /\ exists p q,
       parse strtod_converts false false stale_parser = Returned p
       /\ parse strtod_converts false false unparsed_parser = Returned q
       /\ _map p !! "a" = Some [mk_value value_type.String "1"]
       /\ _map q !! "a" = Some [mk_value value_type.String "2"]
       /\ _map p <> _map q.
Proof.
  split.
  { exists (mk_argparse "" false false "prog" ∅ ["1"; "2"]
              [new_positional_argument "a" value_type.String 1 ""] []),
      (mk_argparse "" true false "prog"
         {[ "a" := [mk_value value_type.String "1"] ]} ["1"; "2"]
         [new_positional_argument "a" value_type.String 1 ""] []).
    split; [reflexivity|]. split; [vm_compute; reflexivity|].
    split; reflexivity. }
  split; [reflexivity|]. split; [reflexivity|]. split; [reflexivity|].
  exists (set_completed true
            (set_map {[ "a" := [mk_value value_type.String "1"];
                        "one" := [mk_value value_type.Bool "true"] ]} stale_parser)),
    (set_completed true
       (set_map {[ "a" := [mk_value value_type.String "2"];
                   "one" := [mk_value value_type.Bool "true"] ]} unparsed_parser)).
  split; [vm_compute; reflexivity|]. split; [vm_compute; reflexivity|].
  split; [vm_compute; reflexivity|]. split; [vm_compute; reflexivity|].
  intros Heq. apply (f_equal (fun m => m !! "a")) in Heq.
  vm_compute in Heq. discriminate.
Qed.



(** A [variable_args] option followed at once by a directive, here its
    own, records the empty list. *)
Example tags_without_values :
  for_options strtod_converts [tags_option; verbose_option]
    [tags_option; verbose_option] ["--tags"; "--tags"] false ∅
  = Return (["--tags"], true) {[ "tags" := [] ]}.
Proof. vm_compute. reflexivity. Qed.

Lemma C5_witness :
  _positional_parsers short_parser
  = [new_positional_argument "a" value_type.String 1 ""]
      ++ new_positional_argument "b" value_type.Integer variable_args "" :: []
  /\ try_block strtod_converts short_parser = Raise insufficient short_map
  /\ (forall s, parse strtod_converts false s short_parser
                = Thrown insufficient (set_map short_map short_parser)).
Proof.
  split; [reflexivity|].
  destruct (C5_positional_argument_needs_a_token strtod_converts short_parser
              [new_positional_argument "a" value_type.String 1 ""] []
              (new_positional_argument "b" value_type.Integer variable_args "")
              ["x"] ∅ short_map) as (Htry & _ & Hparse & _).
  - reflexivity.
  - vm_compute. reflexivity.
  - vm_compute. reflexivity.
  - split; [exact Htry|exact Hparse].
Defined.

Lemma C6_witness :
  reachable strtod_converts true name_nums_parser
  /\ nargs (new_positional_argument "nums" value_type.Integer variable_args "")
     = variable_args
  /\ forall name0 type0 n com,
       exists e, add_argument name0 type0 n com name_nums_parser = Throw e
                 /\ kind_of e = RegistrationError.
Proof.
  split; [exact name_nums_parser_reachable|]. split; [reflexivity|].
  apply (C6_variable_positional_is_last strtod_converts true name_nums_parser
           [new_positional_argument "name" value_type.String 1 ""] []
           (new_positional_argument "nums" value_type.Integer variable_args "")).
  - exact name_nums_parser_reachable.
  - reflexivity.
  - reflexivity.
Defined.





Lemma C9_witness :
  parse strtod_converts false false name_nums_parser = Returned name_nums_parsed
  /\ parse strtod_converts false false name_nums_parsed = Returned name_nums_parsed
  /\ (forall h' s' p2,
        parse strtod_converts h' s' name_nums_parsed = Returned p2 ->
        _map p2 = _map name_nums_parsed).
Proof.
  split; [vm_compute; reflexivity|].
  apply (C9_parse_twice_same_map strtod_converts false false name_nums_parser).
  vm_compute. reflexivity.
Defined.

Lemma C10_witness :
  (forall x, x ∈ _positional_parsers short_parser -> name x <> "help")
  /\ (forall o, o ∈ _optional_parsers name_nums_parser -> name (base o) = "help" ->
        true = true /\ o = help_option).
Proof.
  destruct (C10_help_is_reserved strtod_converts) as (_ & _ & Hreach).
  split.
  - apply (Hreach false short_parser). exact short_parser_reachable.
  - apply (Hreach true name_nums_parser). exact name_nums_parser_reachable.
Defined.

(** ** Runs for the further statements *)

Lemma name_nums_parsed_reachable : reachable strtod_converts true name_nums_parsed.
Proof.
  apply (reach_parse_returned _ _ false false name_nums_parser).
  - exact name_nums_parser_reachable.
  - vm_compute. reflexivity.
Qed.

Lemma X1_witness :
  _map name_nums_parsed !! "nums"
  = Some [mk_value value_type.Integer "1"; mk_value value_type.Integer "2";
          mk_value value_type.Integer "3"]
  /\ exists n : Z, value_get (T := Z) (mk_value value_type.Integer "2") = Ok n.
Proof.
  assert (_map name_nums_parsed !! "nums"
          = Some [mk_value value_type.Integer "1"; mk_value value_type.Integer "2";
                  mk_value value_type.Integer "3"]) as Hk.
  { vm_compute. reflexivity. }
  split; [exact Hk|].
  apply (X1_bound_values_convert strtod_converts true name_nums_parsed "nums" _
           (mk_value value_type.Integer "2") name_nums_parsed_reachable Hk).
  apply list_elem_of_further, list_elem_of_here.
Defined.

Lemma X2_witness :
  _map name_nums_parsed !! "name" = Some [mk_value value_type.String "alice"]
  /\ ((exists ip, ip ∈ _positional_parsers name_nums_parsed /\ name ip = "name"
                  /\ positional_binding ip [mk_value value_type.String "alice"])
      \/ (exists o, o ∈ _optional_parsers name_nums_parsed /\ name (base o) = "name"
                    /\ option_binding o [mk_value value_type.String "alice"])).
Proof.
  assert (_map name_nums_parsed !! "name" = Some [mk_value value_type.String "alice"])
    as Hk.
  { vm_compute. reflexivity. }
  split; [exact Hk|].
  exact (X2_bindings_come_from_registered_arguments strtod_converts true
           name_nums_parsed "name" _ name_nums_parsed_reachable Hk).
Defined.

Lemma colour_not_registered : ~ registered "colour" name_nums_parsed.
Proof.
  intros [(x & Hx & Hn)|(o & Ho & Hn)].
  - simpl in Hx. repeat (apply elem_of_cons in Hx as [->|Hx]; [discriminate Hn|]).
    by apply elem_of_nil in Hx.
  - simpl in Ho. repeat (apply elem_of_cons in Ho as [->|Ho]; [discriminate Hn|]).
    by apply elem_of_nil in Ho.
Qed.

Lemma X3_witness :
  find "colour" name_nums_parsed = false
  /\ get (T := string) "colour" name_nums_parsed = Throws not_found.
Proof.
  destruct (X3_unregistered_name_is_not_found strtod_converts true name_nums_parsed
              "colour" name_nums_parsed_reachable colour_not_registered)
    as [Hfind Hget].
  split; [exact Hfind|].
  destruct (Hget string _) as [[Hg|Hg] _]; [discriminate Hg|exact Hg].
Defined.

(** A parser whose option [--tags] is given without a value. *)
Lemma tags_parsed_reachable :
  reachable strtod_converts true
    (mk_argparse "" true false "prog" {[ "tags" := [] ]} ["--tags"] []
       [help_option; tags_option]).
Proof.
  pose (p0 := new_argparse "prog" ["--tags"] "" true).
  pose (p1 := mk_argparse "" false false "prog" ∅ ["--tags"] []
                [help_option; tags_option]).
  apply (reach_parse_returned _ _ false false p1); [|vm_compute; reflexivity].
  apply (reach_add_option1 _ _ "--tags" "tags" value_type.String variable_args "" p0);
    [|reflexivity].
  apply reach_new.
Qed.

Lemma X4_witness :
  get (T := string) "tags"
    (mk_argparse "" true false "prog" {[ "tags" := [] ]} ["--tags"] []
       [help_option; tags_option]) = Undefined
  /\ getall (T := string) "tags"
       (mk_argparse "" true false "prog" {[ "tags" := [] ]} ["--tags"] []
          [help_option; tags_option]) = Ok [].
Proof.
  assert (get (T := string) "tags"
            (mk_argparse "" true false "prog" {[ "tags" := [] ]} ["--tags"] []
               [help_option; tags_option]) = Undefined) as Hget.
  { vm_compute. reflexivity. }
  split; [exact Hget|].
  exact (proj1 (X4_get_on_an_empty_binding strtod_converts true _ "tags" string _
                  tags_parsed_reachable Hget)).
Defined.

Lemma X5_witness :
  parse strtod_converts false false name_nums_parser = Returned name_nums_parsed
  /\ find "name" name_nums_parsed = true.
Proof.
  assert (parse strtod_converts false false name_nums_parser
          = Returned name_nums_parsed) as Hp.
  { vm_compute. reflexivity. }
  split; [exact Hp|].
  apply (X5_parse_binds_every_positional strtod_converts false false
           name_nums_parser name_nums_parsed
           (new_positional_argument "name" value_type.String 1 "") Hp).
  apply list_elem_of_here.
Defined.

Lemma X6_witness :
  optional_scan strtod_converts [help_option; tags_option; verbose_option]
    ["a"; "b"] [] ∅
  = Return ([] ++ ["a"; "b"]) ∅.
Proof.
  apply (X6_tokens_without_directives_pass_through strtod_converts).
  repeat constructor; apply not_a_directive; reflexivity.
Defined.

Lemma X7_witness :
  optional_scan strtod_converts [help_option; tags_option; verbose_option]
    ["x"; "--verbose"; "y"] [] ∅
  = Return ["x"; "y"] {[ "verbose" := [mk_value value_type.Bool "true"] ]}
  /\ exists r', ["x"; "y"] = [] ++ r'
                /\ r' `sublist_of` ["x"; "--verbose"; "y"]
                /\ Forall (fun t => ~ is_directive
                                      [help_option; tags_option; verbose_option] t) r'.
Proof.
  assert (optional_scan strtod_converts [help_option; tags_option; verbose_option]
            ["x"; "--verbose"; "y"] [] ∅
          = Return ["x"; "y"] {[ "verbose" := [mk_value value_type.Bool "true"] ]})
    as Hs.
  { vm_compute. reflexivity. }
  split; [exact Hs|].
  exact (X7_remaining_tokens_are_not_directives strtod_converts _ _ _ _ _ _ Hs).
Defined.

Lemma X8_witness :
  bind_positional strtod_converts
    (new_positional_argument "pair" value_type.Integer 2 "") ["1"; "2"; "3"]
  = Ok ([mk_value value_type.Integer "1"; mk_value value_type.Integer "2"], ["3"]).
Proof.
  destruct (X8_fixed_positional_takes_its_size strtod_converts
              (new_positional_argument "pair" value_type.Integer 2 "")
              ["1"; "2"; "3"]) as (_ & Henough & _).
  - simpl. lia.
  - apply Henough.
    + simpl. lia.
    + repeat constructor.
Defined.

Lemma X9_witness :
  positional_scan strtod_converts
    [new_positional_argument "a" value_type.String 1 ""] ["x"] ∅
  = Return [] {[ "a" := [mk_value value_type.String "x"] ]}
  /\ positional_scan strtod_converts
       [new_positional_argument "a" value_type.String 1 ""] (["x"] ++ ["y"; "z"]) ∅
     = Return ([] ++ ["y"; "z"]) {[ "a" := [mk_value value_type.String "x"] ]}.
Proof.
  assert (positional_scan strtod_converts
            [new_positional_argument "a" value_type.String 1 ""] ["x"] ∅
          = Return [] {[ "a" := [mk_value value_type.String "x"] ]}) as Hs.
  { vm_compute. reflexivity. }
  split; [exact Hs|].
  apply (X9_surplus_tokens_are_left_over strtod_converts); [|exact Hs].
  repeat constructor. discriminate.
Defined.

Lemma X10_witness :
  getall (T := Z) "nums" name_nums_parsed = Ok [1; 2; 3]
  /\ get (T := Z) "nums" name_nums_parsed = Returns 1.
Proof.
  assert (getall (T := Z) "nums" name_nums_parsed = Ok [1; 2; 3]) as Hall.
  { vm_compute. reflexivity. }
  split; [exact Hall|].
  exact (proj2 (X10_get_is_the_first_of_getall Z _ "nums" name_nums_parsed _ Hall)).
Defined.

Lemma X11_witness :
  parse_io strtod_converts false false short_parser
  = IoThrown insufficient (set_map short_map short_parser)
  /\ try_block strtod_converts short_parser = Raise insufficient short_map.
Proof.
  assert (parse_io strtod_converts false false short_parser
          = IoThrown insufficient (set_map short_map short_parser)) as Hp.
  { vm_compute. reflexivity. }
  split; [exact Hp|].
  exact (proj1 (proj2 (proj2 (X11_parse_throws_the_error_of_its_scan strtod_converts
                                false false short_parser _ _ Hp)))).
Defined.

Lemma X12_witness :
  add_option1 "--verbose" "verbose" value_type.Bool 0 "" name_nums_parsed
  = Ok name_nums_verbose
  /\ find "nums" name_nums_verbose = find "nums" name_nums_parsed
  /\ get (T := Z) "nums" name_nums_verbose = Throws not_parsed.
Proof.
  assert (add_option1 "--verbose" "verbose" value_type.Bool 0 "" name_nums_parsed
          = Ok name_nums_verbose) as Hadd by reflexivity.
  split; [exact Hadd|].
  destruct (X12_registration_locks_the_queries name_nums_parsed name_nums_verbose
              "verbose" "--verbose" "" [] value_type.Bool 0
              (or_intror (or_introl Hadd))) as (_ & _ & Hfind & Hget).
  split; [apply Hfind|apply (Hget Z _ "nums")].
Defined.

Lemma X13_witness :
  exists m',
    optional_scan strtod_converts [help_option; verbose_option]
      ["x"; "--verbose"; "y"] [] ∅
    = Return ([] ++ filter (fun t => std_find [help_option; verbose_option] t = false)
                      ["x"; "--verbose"; "y"]) m'
    /\ (forall k vs, m' !! k = Some vs ->
          (∅ : gmap string values) !! k = Some vs
          \/ vs = [mk_value value_type.Bool "true"]).
Proof.
  destruct (X13_switches_are_filtered_out strtod_converts
              [help_option; verbose_option] ["x"; "--verbose"; "y"] [] ∅)
    as (m' & Hs & _ & Hval).
  - repeat constructor.
  - exists m'. split; [exact Hs|exact Hval].
Defined.

Lemma X14_witness :
  optional_scan strtod_converts [help_option; tags_option] ["--tags"; "a"] [] ∅
  <> Abort.
Proof.
  apply (X14_no_fixed_option_no_undefined_read strtod_converts).
  repeat constructor; simpl; unfold variable_args; lia.
Defined.

Lemma count_parser_reachable : reachable strtod_converts true count_parser.
Proof.
  apply (reach_add_option1 _ _ "--count" "count" value_type.Integer 1 ""
           (new_argparse "prog" ["--count"] "" true)); [|reflexivity].
  apply reach_new.
Qed.

Lemma X15_witness :
  parse_io strtod_converts false false count_parser = IoUnspecified
  /\ optional_scan strtod_converts (_optional_parsers count_parser)
       (_arguments count_parser) [] (_map count_parser) = Abort.
Proof.
  assert (parse_io strtod_converts false false count_parser = IoUnspecified) as Hp.
  { vm_compute. reflexivity. }
  split; [exact Hp|].
  apply (X15_parse_is_undefined_in_phase_1_only strtod_converts true false false
           count_parser count_parser_reachable); [|exact Hp].
  repeat constructor; discriminate.
Defined.

Lemma X16_witness :
  String.length full_line = 72%nat
  /\ comment_lines (full_line +:+ "The rest.")
     = "        " +:+ full_line +:+ nl +:+ comment_lines "The rest."
  /\ comment_lines "The rest." = "        " +:+ "The rest." +:+ nl.
Proof.
  split; [reflexivity|]. split.
  - apply (X16_description_in_lines_of_72 full_line "The rest."). reflexivity.
  - apply (X16_description_in_lines_of_72 "The rest." ""). simpl. lia.
Defined.

Lemma name_nums_directives :
  Forall (fun o => options o <> []) (_optional_parsers name_nums_parser).
Proof. repeat constructor; discriminate. Qed.

Lemma name_nums_describable : all_describable name_nums_parser.
Proof.
  split.
  - repeat constructor; by eexists.
  - repeat constructor. intros [H|H]; simpl in H; [lia|discriminate].
Qed.

Lemma X18_witness :
  (exists out, show_help false name_nums_parser = Printed out)
  /\ all_describable name_nums_parser.
Proof.
  assert (exists out, show_help false name_nums_parser = Printed out) as [out Hout].
  { eexists. vm_compute. reflexivity. }
  split; [by exists out|].
  pose proof (X18_full_help_needs_named_types name_nums_parser name_nums_directives)
    as Hx.
  rewrite Hout in Hx. exact Hx.
Defined.

Lemma flag_not_describable pp op :
  ~ all_describable
      (mk_argparse "" false false "prog" ∅ ["-h"; "1"]
         (new_positional_argument "flag" value_type.Bool 1 "" :: pp) op).
Proof.
  intros [Hpp _]. apply Forall_cons in Hpp as [[d Hd] _]. discriminate.
Qed.

Lemma X20_witness :
  (exists err,
      parse_io strtod_converts false true flag_parser
      = IoThrownWrongType err (set_completed true (set_map flag_map flag_parser)))
  /\ (exists err,
        parse_io strtod_converts true false flag_count_parser
        = IoThrownWrongType err
            (set_completed true (set_map flag_map flag_count_parser)))
  /\ try_block strtod_converts flag_count_parser = Raise insufficient flag_map.
Proof.
  split; [|split; [|vm_compute; reflexivity]].
  - destruct (X20_help_can_throw_out_of_parse strtod_converts false true
                flag_parser flag_map) as (err & _ & Hio & _).
    + repeat constructor. discriminate.
    + apply flag_not_describable.
    + vm_compute. reflexivity.
    + left. split; [reflexivity|]. exists []. vm_compute. reflexivity.
    + by exists err.
  - destruct (X20_help_can_throw_out_of_parse strtod_converts true false
                flag_count_parser flag_map) as (err & _ & Hio & _).
    + repeat constructor. discriminate.
    + apply flag_not_describable.
    + vm_compute. reflexivity.
    + right. split; [reflexivity|]. exists insufficient. vm_compute. reflexivity.
    + by exists err.
Defined.

Lemma X21_witness :
  stol (print_d (-42)) = inr (-42)
  /\ value_get (T := Z) (mk_value value_type.Integer (print_d (-42))) = Ok (-42).
Proof.
  destruct (X21_printed_integer_reads_back strtod_converts (-42)) as (Hs & _ & Hg).
  - unfold LONG_MIN, LONG_MAX. lia.
  - split; [exact Hs|exact Hg].
Defined.

Lemma X22_witness :
  for_options strtod_converts
    [help_option; new_optional_argument1 "--count" "count" value_type.Integer 1 ""]
    [new_optional_argument1 "--count" "count" value_type.Integer 1 ""]
    ["--count"; "5"; "f.txt"] false ∅
  = for_options strtod_converts
      [help_option; new_optional_argument1 "--count" "count" value_type.Integer 1 ""]
      [] ["f.txt"] true
      (map_insert "count" [mk_value value_type.Integer "5"] ∅).
Proof.
  destruct (X22_fixed_option_takes_its_size strtod_converts
              [help_option;
               new_optional_argument1 "--count" "count" value_type.Integer 1 ""]
              [] (new_optional_argument1 "--count" "count" value_type.Integer 1 "")
              "--count" ["5"; "f.txt"] false ∅) as (Henough & _).
  - apply list_elem_of_here.
  - simpl. lia.
  - apply Henough.
    + simpl. lia.
    + repeat constructor.
Defined.

Lemma X23_witness :
  try_block strtod_converts short_parser = Raise insufficient short_map
  /\ exists out,
       show_help true short_parser = Printed out
       /\ parse_io strtod_converts true false short_parser
          = IoExited EXIT_FAILURE
              (out +:+ nl +:+ "error: " +:+ what insufficient +:+ nl).
Proof.
  assert (try_block strtod_converts short_parser = Raise insufficient short_map)
    as Htry by (vm_compute; reflexivity).
  split; [exact Htry|].
  pose proof (X23_without_help_option_no_help strtod_converts true false short_parser
                short_parser_reachable) as H.
  rewrite Htry in H.
  destruct (show_help true short_parser) as [out|out|] eqn:S.
  - exists out. split; [reflexivity|exact H].
  - destruct H.
  - vm_compute in S. discriminate S.
Defined.

Lemma help_count_parser_reachable : reachable strtod_converts true help_count_parser.
Proof.
  apply (reach_add_option1 _ _ "--count" "count" value_type.Integer 1 ""
           (new_argparse "prog" ["-h"; "--count"] "" true)); [|reflexivity].
  apply reach_new.
Qed.

Lemma X24_witness :
  (exists out,
      show_help false help_first_parser = Printed out
      /\ parse_io strtod_converts true true help_first_parser
         = IoExited EXIT_SUCCESS out)
  /\ parse_io strtod_converts true true help_count_parser = IoUnspecified.
Proof.
  split.
  - pose proof (X24_help_first_wins strtod_converts help_first_parser "-h" ["x"]
                  (reach_new _ _ _ _ _) eq_refl (or_introl eq_refl)) as H.
    destruct (try_block strtod_converts help_first_parser) as [r m1|e m1|] eqn:E;
      [| |vm_compute in E; discriminate E].
    all: destruct H as [_ H].
    all: destruct (show_help false help_first_parser) as [out|out|] eqn:S;
      [|vm_compute in S; discriminate S..].
    all: exists out; split; [reflexivity|exact H].
  - pose proof (X24_help_first_wins strtod_converts help_count_parser "-h"
                  ["--count"] help_count_parser_reachable eq_refl
                  (or_introl eq_refl)) as H.
    destruct (try_block strtod_converts help_count_parser) as [r m1|e m1|] eqn:E;
      [vm_compute in E; discriminate E..|].
    exact H.
Defined.
